(** * Graduate-to-job matcher: scoring, ranking and result cache

    A shallow embedding of [ai-service/app/matcher.py].

    Conventions of the embedding.
    - A Python [float] that a caller or the configuration supplies is a
      finite number, an exact rational ([Q]).  A float the module computes
      from embeddings is a [pyfloat]: its exact value, or an infinity, or
      NaN.  An operation gives its exact result unless that leaves the range
      of the format (of float32 inside NumPy, of float64 elsewhere); rounding
      within the range is not modelled.  A Python [int] is a [Z].
    - A [TypedDict] with [total=False] is a record of [option] fields; a key
      that is absent and [dict.get] returning [None] are both [None].
    - A [dict] or [OrderedDict] whose order matters is an association list in
      insertion order.
    - A raised exception is the [Raise] outcome of a computation; the module
      level [_cache] is passed in and out of every operation that touches it.
    - The library routines the module calls (SHA-1, the NumPy byte image of
      a vector, [json.dumps], the square root, the timestamp decay, the
      arrangement [list.sort] makes of keys that include a NaN) are the
      fields of a record [Runtime], and the clock readings of a call those of
      a record [Clock]; every statement holds for all of them. *)

From Stdlib Require Import List Bool Arith ZArith QArith Qabs Qround Qminmax Lia.
From Stdlib Require Import Ascii String.
From Stdlib Require Import Sorted Permutation Lqa.
Import ListNotations.

Local Open Scope string_scope.
Local Open Scope Q_scope.

(** ** Numbers *)

Definition Qlt_bool (a b : Q) : bool := negb (Qle_bool b a).

(** [max(a, b)] and [min(a, b)] of Python: the first argument is kept unless
    the second is strictly larger (smaller). *)
Definition py_max (a b : Q) : Q := if Qlt_bool a b then b else a.
Definition py_min (a b : Q) : Q := if Qlt_bool b a then b else a.

(** Nearest integer, ties to the even one: the rounding of [round]. *)
Definition round_half_even (q : Q) : Z :=
  let f := Qfloor q in
  let r := q - inject_Z f in
  if Qlt_bool r (1 # 2) then f
  else if Qlt_bool (1 # 2) r then (f + 1)%Z
  else if Z.even f then f else (f + 1)%Z.

(** [round(x, 4)]. *)
Definition round4 (x : Q) : Q := Qmake (round_half_even (x * 10000)) 10000.

(** [sum(values)]: a left fold from [0]. *)
Definition py_sum (l : list Q) : Q := fold_left Qplus l 0.

(** ** Floats beyond the finite range

    The exact value of a float, or one of the special values of IEEE 754. *)
Inductive pyfloat :=
| Finite (q : Q)
| PosInf
| NegInf
| NaN.

(** The least magnitude that rounds to an infinity: half a unit in the last
    place beyond the largest finite number, [2^1024 - 2^970] for float64 and
    [2^128 - 2^103] for float32.  A float32 of magnitude [2^-150] or less,
    half the least subnormal number, rounds to zero. *)
Definition DBL_OVERFLOW : Q := inject_Z (2 ^ 1024 - 2 ^ 970).
Definition FLT_OVERFLOW : Q := inject_Z (2 ^ 128 - 2 ^ 103).
Definition FLT_UNDERFLOW : Q := 1 # (2 ^ 150).

(** The float64 and the float32 of an exact value. *)
Definition float64 (q : Q) : pyfloat :=
  if Qle_bool DBL_OVERFLOW q then PosInf
  else if Qle_bool q (- DBL_OVERFLOW) then NegInf
  else Finite q.

Definition float32 (q : Q) : pyfloat :=
  if Qle_bool FLT_OVERFLOW q then PosInf
  else if Qle_bool q (- FLT_OVERFLOW) then NegInf
  else if Qle_bool (Qabs q) FLT_UNDERFLOW then Finite 0
  else Finite q.

Definition signed_inf (negative : bool) : pyfloat :=
  if negative then NegInf else PosInf.

(** An infinity times a finite number: NaN for zero. *)
Definition inf_times (negative : bool) (x : Q) : pyfloat :=
  if Qeq_bool x 0 then NaN else signed_inf (xorb negative (Qlt_bool x 0)).

(** [a * b] and [a + b] in the format whose range is [range]. *)
Definition fmul (range : Q -> pyfloat) (a b : pyfloat) : pyfloat :=
  match a, b with
  | NaN, _ | _, NaN => NaN
  | Finite x, Finite y => range (x * y)
  | Finite x, PosInf | PosInf, Finite x => inf_times false x
  | Finite x, NegInf | NegInf, Finite x => inf_times true x
  | PosInf, PosInf | NegInf, NegInf => PosInf
  | PosInf, NegInf | NegInf, PosInf => NegInf
  end.

Definition fadd (range : Q -> pyfloat) (a b : pyfloat) : pyfloat :=
  match a, b with
  | NaN, _ | _, NaN => NaN
  | Finite x, Finite y => range (x + y)
  | PosInf, NegInf | NegInf, PosInf => NaN
  | PosInf, _ | _, PosInf => PosInf
  | NegInf, _ | _, NegInf => NegInf
  end.

(** [a / b] on Python floats, for a divisor that is not zero. *)
Definition fdiv (a b : pyfloat) : pyfloat :=
  match a, b with
  | NaN, _ | _, NaN => NaN
  | Finite x, Finite y => float64 (x / y)
  | Finite _, _ => Finite 0
  | PosInf, Finite y => signed_inf (Qlt_bool y 0)
  | NegInf, Finite y => signed_inf (negb (Qlt_bool y 0))
  | _, _ => NaN
  end.

(** [a < b] and [a <= b]: false when either side is NaN. *)
Definition flt (a b : pyfloat) : bool :=
  match a, b with
  | NaN, _ | _, NaN => false
  | Finite x, Finite y => Qlt_bool x y
  | Finite _, PosInf => true
  | Finite _, NegInf => false
  | PosInf, _ => false
  | NegInf, NegInf => false
  | NegInf, _ => true
  end.

Definition fle (a b : pyfloat) : bool :=
  match a, b with
  | NaN, _ | _, NaN => false
  | Finite x, Finite y => Qle_bool x y
  | Finite _, PosInf => true
  | Finite _, NegInf => false
  | PosInf, PosInf => true
  | PosInf, _ => false
  | NegInf, _ => true
  end.

Definition is_nan (a : pyfloat) : bool :=
  match a with NaN => true | _ => false end.

(** The same float: the same special value, or equal numbers. *)
Definition same_float (a b : pyfloat) : Prop :=
  match a, b with
  | Finite x, Finite y => x == y
  | PosInf, PosInf | NegInf, NegInf | NaN, NaN => True
  | _, _ => False
  end.

(** The square root, given the one on finite numbers. *)
Definition fsqrt (sqrt : Q -> Q) (a : pyfloat) : pyfloat :=
  match a with
  | Finite q => Finite (sqrt q)
  | PosInf => PosInf
  | NegInf | NaN => NaN
  end.

(** [np.clip(x, lo, hi)]: a NaN stays a NaN. *)
Definition np_clip (x : pyfloat) (lo hi : Q) : pyfloat :=
  match x with
  | Finite q => Finite (Qmin (Qmax q lo) hi)
  | PosInf => Finite hi
  | NegInf => Finite lo
  | NaN => NaN
  end.

(** [round(x, 4)] on a float: the special values round to themselves. *)
Definition fround4 (x : pyfloat) : pyfloat :=
  match x with
  | Finite q => Finite (round4 q)
  | _ => x
  end.

(** ** Strings

    [str.strip] and [str.lower] on ASCII text; bytes outside ASCII are left
    as they are. *)

Definition is_space (a : ascii) : bool :=
  let n := nat_of_ascii a in
  ((9 <=? n) && (n <=? 13) || (28 <=? n) && (n <=? 32))%nat.

Definition lower_ascii (a : ascii) : ascii :=
  let n := nat_of_ascii a in
  if ((65 <=? n) && (n <=? 90))%nat then ascii_of_nat (n + 32) else a.

Fixpoint lower (s : string) : string :=
  match s with
  | EmptyString => EmptyString
  | String a t => String (lower_ascii a) (lower t)
  end.

Fixpoint lstrip (s : string) : string :=
  match s with
  | EmptyString => EmptyString
  | String a t => if is_space a then lstrip t else s
  end.

Fixpoint rstrip (s : string) : string :=
  match s with
  | EmptyString => EmptyString
  | String a t =>
      match rstrip t with
      | EmptyString => if is_space a then EmptyString else String a EmptyString
      | t' => String a t'
      end
  end.

Definition strip (s : string) : string := lstrip (rstrip s).

(** [needle in haystack] on strings. *)
Fixpoint contains (needle haystack : string) : bool :=
  String.prefix needle haystack
  || match haystack with
     | EmptyString => false
     | String _ t => contains needle t
     end.

(** [sep.join(parts)]. *)
Fixpoint join (sep : string) (parts : list string) : string :=
  match parts with
  | [] => EmptyString
  | [p] => p
  | p :: rest => p ++ sep ++ join sep rest
  end.

(** Truthiness of a string: [if s]. *)
Definition nonempty (s : string) : bool :=
  match s with EmptyString => false | _ => true end.

(** ** Sets of strings

    A Python [set] of strings is a list without repetition. *)

Definition mem (x : string) (l : list string) : bool :=
  existsb (String.eqb x) l.

Fixpoint to_set (l : list string) : list string :=
  match l with
  | [] => []
  | x :: t => let s := to_set t in if mem x s then s else x :: s
  end.

Definition intersection (a b : list string) : list string :=
  filter (fun x => mem x b) a.

Definition union (a b : list string) : list string :=
  a ++ filter (fun x => negb (mem x a)) b.

(** ** Factor scorers *)

(** The set comprehension [{skill.strip().lower() for skill in skills if skill}]. *)
Definition skill_set (skills : list string) : list string :=
  to_set (map (fun skill => lower (strip skill)) (filter nonempty skills)).

(** Truthiness of an optional list: [None] and [[]] are false. *)
Definition truthy_list {A} (l : option (list A)) : bool :=
  match l with Some (_ :: _) => true | _ => false end.

Definition _skills_similarity (graduate job : option (list string)) : Q :=
  match graduate with
  | None | Some [] => 0
  | Some gl =>
      match job with
      | None | Some [] => 1 # 2
      | Some jl =>
          let grad_set := skill_set gl in
          let job_set := skill_set jl in
          match grad_set, job_set with
          | [], _ | _, [] => 0
          | _, _ =>
              inject_Z (Z.of_nat (List.length (intersection grad_set job_set)))
              / inject_Z (Z.of_nat (List.length (union grad_set job_set)))
          end
      end
  end.

Definition _education_similarity (graduate job : option string) : Q :=
  match job with
  | None | Some EmptyString => 1 # 2
  | Some j =>
      match graduate with
      | None | Some EmptyString => 0
      | Some g =>
          let grad_norm := lower (strip g) in
          let job_norm := lower (strip j) in
          if negb (nonempty grad_norm) || negb (nonempty job_norm) then 0
          else if String.eqb grad_norm job_norm then 1
          else if contains grad_norm job_norm || contains job_norm grad_norm
               then 7 # 10
          else 0
      end
  end.

Definition _experience_similarity (graduate_years job_years : option Q) : Q :=
  match job_years with
  | None => 6 # 10
  | Some j =>
      match graduate_years with
      | None => 0
      | Some g =>
          let diff := Qabs (g - j) in
          if Qle_bool j diff then 0
          else py_max 0 (1 - diff / py_max j 1)
      end
  end.

(** ** Data model *)

Record GraduateMetadata := {
  gm_skills : option (list string);
  gm_education : option string;
  gm_experience_years : option Q;
  gm_latest_experience_year : option Z }.

Record JobMetadata := {
  jm_skills : option (list string);
  jm_education : option string;
  jm_experience_years : option Q;
  jm_updated_at : option string }.

(** A weight mapping: factor name to weight, in insertion order. *)
Definition Weights := list (string * Q).

Record MatchOptions := {
  mo_min_score : option Q;
  mo_limit : option Z;
  mo_weights : option Weights }.

Record JobEmbeddingPayload := {
  job_id : option string;
  job_embedding : option (list Q);
  job_metadata : option JobMetadata }.

Record MatchFactors := {
  mf_embedding : pyfloat;
  mf_skills : Q;
  mf_education : Q;
  mf_experience : Q;
  mf_freshness : Q }.

Record MatchResult := {
  mr_id : string;
  mr_score : pyfloat;
  mr_factors : MatchFactors }.

Record _CacheEntry := {
  value : list MatchResult;
  expires_at : Q }.

(** [_cache]: an [OrderedDict], least recently used entry first. *)
Definition Cache := list (string * _CacheEntry).

(** The values the module reads from the environment when it is imported,
    under the names of their environment variables. *)
Record Config := {
  MATCH_MIN_SCORE : Q;
  MATCH_MAX_RESULTS : Z;
  MATCH_CACHE_TTL_SECONDS : Z;
  MATCH_CACHE_MAX_ENTRIES : Z;
  MATCH_WEIGHT_EMBEDDING : Q;
  MATCH_WEIGHT_SKILLS : Q;
  MATCH_WEIGHT_EDUCATION : Q;
  MATCH_WEIGHT_EXPERIENCE : Q;
  MATCH_WEIGHT_FRESHNESS : Q }.

Definition DEFAULT_MIN_SCORE (cfg : Config) : Q := MATCH_MIN_SCORE cfg.
Definition DEFAULT_MAX_RESULTS (cfg : Config) : Z := MATCH_MAX_RESULTS cfg.

Definition DEFAULT_WEIGHTS (cfg : Config) : Weights :=
  [("embedding", MATCH_WEIGHT_EMBEDDING cfg);
   ("skills", MATCH_WEIGHT_SKILLS cfg);
   ("education", MATCH_WEIGHT_EDUCATION cfg);
   ("experience", MATCH_WEIGHT_EXPERIENCE cfg);
   ("freshness", MATCH_WEIGHT_FRESHNESS cfg)].

(** The configuration when no environment variable is set. *)
Definition default_config : Config := {|
  MATCH_MIN_SCORE := 3 # 10;
  MATCH_MAX_RESULTS := 50;
  MATCH_CACHE_TTL_SECONDS := 300;
  MATCH_CACHE_MAX_ENTRIES := 1024;
  MATCH_WEIGHT_EMBEDDING := 6 # 10;
  MATCH_WEIGHT_SKILLS := 2 # 10;
  MATCH_WEIGHT_EDUCATION := 1 # 10;
  MATCH_WEIGHT_EXPERIENCE := 5 # 100;
  MATCH_WEIGHT_FRESHNESS := 5 # 100 |}.

(** [app.embeddings.EMBEDDING_DIMENSION]. *)
Definition EMBEDDING_DIMENSION : nat := 3072.

(** ** Exceptions and outcomes *)

Inductive exn :=
| ValueError_dimension (expected got : nat)
| KeyError_popitem
| Failed_to_compute_matches (cause : exn).

Inductive outcome (A : Type) :=
| Return (a : A)
| Raise (e : exn).
Arguments Return {A} a.
Arguments Raise {A} e.

Definition bind {A B} (m : outcome A) (k : A -> outcome B) : outcome B :=
  match m with
  | Return a => k a
  | Raise e => Raise e
  end.

Notation "x <- m ;; k" := (bind m (fun x => k))
  (at level 61, m at next level, right associativity).

(** ** Validation *)

(** [_validate_vector] on a flat list of floats: the array is one-dimensional,
    only its size is checked. *)
Definition _validate_vector (vector : list Q) : outcome (list Q) :=
  if (List.length vector =? EMBEDDING_DIMENSION)%nat then Return vector
  else Raise (ValueError_dimension EMBEDDING_DIMENSION (List.length vector)).

(** ** Weights *)

Definition dict_get {V} (k : string) (d : list (string * V)) : option V :=
  match find (fun kv => String.eqb k (fst kv)) d with
  | Some kv => Some (snd kv)
  | None => None
  end.

Definition dict_mem {V} (k : string) (d : list (string * V)) : bool :=
  existsb (fun kv => String.eqb k (fst kv)) d.

(** [d[k] = v]: an existing key keeps its place, a new key goes last. *)
Fixpoint dict_set {V} (k : string) (v : V) (d : list (string * V)) : list (string * V) :=
  match d with
  | [] => [(k, v)]
  | (k', v') :: t =>
      if String.eqb k k' then (k', v) :: t else (k', v') :: dict_set k v t
  end.

(** [d.pop(k, None)], the popped value dropped. *)
Definition dict_remove {V} (k : string) (d : list (string * V)) : list (string * V) :=
  filter (fun kv => negb (String.eqb k (fst kv))) d.

(** [d.update(other)]. *)
Definition dict_update {V} (d other : list (string * V)) : list (string * V) :=
  fold_left (fun acc kv => dict_set (fst kv) (snd kv) acc) other d.

Definition positive_weights (weights : Weights) : Weights :=
  map (fun kv => (fst kv, py_max (snd kv) 0)) weights.

(** The sum of the clamped values is a float64: beyond the range it is
    [inf], and [value / inf] is [0.0]. *)
Definition _normalise_weights (weights : Weights) : Weights :=
  let positive := positive_weights weights in
  match float64 (py_sum (map snd positive)) with
  | Finite total =>
      if Qeq_bool total 0 then
        map (fun kv => (fst kv, if String.eqb (fst kv) "embedding" then 1 else 0)) weights
      else
        map (fun kv => (fst kv, snd kv / total)) positive
  | _ => map (fun kv => (fst kv, 0)) positive
  end.

(** The mapping [_prepare_options] hands to [_normalise_weights]: a copy of
    the defaults, updated with the caller's weights when there are any. *)
Definition weights_input (cfg : Config) (options : option MatchOptions) : Weights :=
  match options with
  | Some {| mo_weights := Some (w :: ws) |} => dict_update (DEFAULT_WEIGHTS cfg) (w :: ws)
  | _ => DEFAULT_WEIGHTS cfg
  end.

Definition _prepare_options (cfg : Config) (options : option MatchOptions)
  : Q * Z * Weights :=
  let min_score :=
    match options with
    | Some {| mo_min_score := Some m |} => m
    | _ => DEFAULT_MIN_SCORE cfg
    end in
  let limit :=
    match options with
    | Some {| mo_limit := Some l |} => l
    | _ => DEFAULT_MAX_RESULTS cfg
    end in
  let weights := _normalise_weights (weights_input cfg options) in
  (py_max 0 (py_min min_score 1), Z.max 1 limit, weights).

(** The three components of what [_prepare_options] returns. *)
Definition effective_min_score (cfg : Config) (options : option MatchOptions) : Q :=
  fst (fst (_prepare_options cfg options)).
Definition effective_limit (cfg : Config) (options : option MatchOptions) : Z :=
  snd (fst (_prepare_options cfg options)).
Definition effective_weights (cfg : Config) (options : option MatchOptions) : Weights :=
  snd (_prepare_options cfg options).

(** [weights[name]] in the scoring loop; the five names are always present
    (see [prepared_weights_keys]), so the default is never used. *)
Definition weight (weights : Weights) (name : string) : Q :=
  match dict_get name weights with Some w => w | None => 0 end.

(** ** Deduplication *)

Definition job_usable (job : JobEmbeddingPayload) : option string :=
  match job_id job, job_embedding job with
  | Some (String a s), Some _ => Some (String a s)
  | _, _ => None
  end.

(** The loop of [_deduplicate_jobs], [seen] being the keys of [deduped]. *)
Fixpoint dedup_from (seen : list string) (jobs : list JobEmbeddingPayload)
  : list JobEmbeddingPayload :=
  match jobs with
  | [] => []
  | job :: rest =>
      match job_usable job with
      | None => dedup_from seen rest
      | Some i =>
          if mem i seen then dedup_from seen rest
          else job :: dedup_from (i :: seen) rest
      end
  end.

Definition _deduplicate_jobs (jobs : list JobEmbeddingPayload) : list JobEmbeddingPayload :=
  dedup_from [] jobs.

(** ** The result cache *)

Definition cache_get (key : string) (c : Cache) : option _CacheEntry := dict_get key c.

(** [_cache.move_to_end(key)]. *)
Definition move_to_end (key : string) (c : Cache) : Cache :=
  match cache_get key c with
  | Some e => (dict_remove key c ++ [(key, e)])%list
  | None => c
  end.

(** [_get_from_cache] at the monotonic instant [now]. *)
Definition _get_from_cache (key : string) (now : Q) (c : Cache)
  : option (list MatchResult) * Cache :=
  match cache_get key c with
  | None => (None, c)
  | Some entry =>
      if Qlt_bool (expires_at entry) now then (None, dict_remove key c)
      else (Some (value entry), move_to_end key c)
  end.

(** [while len(_cache) > MATCH_CACHE_MAX_ENTRIES: _cache.popitem(last=False)];
    [popitem] on an empty dictionary raises [KeyError]. *)
Fixpoint evict (max_entries : Z) (c : Cache) : outcome unit * Cache :=
  if (max_entries <? Z.of_nat (List.length c))%Z then
    match c with
    | [] => (Raise KeyError_popitem, [])
    | _ :: rest => evict max_entries rest
    end
  else (Return tt, c).

(** [_set_cache] at the monotonic instant [now]. *)
Definition _set_cache (cfg : Config) (key : string) (v : list MatchResult)
  (now : Q) (c : Cache) : outcome unit * Cache :=
  let c1 := if dict_mem key c then move_to_end key c else c in
  let entry := {| value := v;
                  expires_at := now + inject_Z (MATCH_CACHE_TTL_SECONDS cfg) |} in
  evict (MATCH_CACHE_MAX_ENTRIES cfg) (dict_set key entry c1).

(** ** The library routines and the clock

    What the module calls and does not define.  [sha1_hexdigest] is
    [hashlib.sha1(b).hexdigest()]; [float32_bytes] is
    [np.asarray(v, dtype=np.float32).tobytes()]; the three [json_dumps_*] are
    [json.dumps(d, sort_keys=True, default=str)] at the three dictionary
    types; [sqrt] is the square root inside [np.linalg.norm];
    [timestamp_freshness now text] is the tail of [_freshness_score] for a
    non-empty [text] read at the wall-clock instant [now] (parse, age,
    half-life decay, clamp).  [sort_with_nan] is [list.sort] on results of
    which one has a NaN score: no order of the floats decides the outcome
    then, CPython's run detection and merging do; it is an arrangement of
    the same results all the same ([sort_with_nan_permutes]). *)
Record Runtime := {
  sha1_hexdigest : string -> string;
  float32_bytes : list Q -> string;
  json_dumps_graduate : GraduateMetadata -> string;
  json_dumps_job : JobMetadata -> string;
  json_dumps_options : MatchOptions -> string;
  sqrt : Q -> Q;
  timestamp_freshness : Q -> string -> Q;
  sort_with_nan : list MatchResult -> list MatchResult;
  sort_with_nan_permutes : forall l, Permutation (sort_with_nan l) l }.

(** The clock readings of one call of [compute_matches]: [time.monotonic()]
    in [_get_from_cache] and in [_set_cache], and [datetime.now] in the
    [i]-th turn of the scoring loop. *)
Record Clock := {
  monotonic_read : Q;
  monotonic_write : Q;
  utc_now : nat -> Q }.

(** ** Cache key *)

Definition _hash_vector (rt : Runtime) (vector : list Q) : string :=
  sha1_hexdigest rt (float32_bytes rt vector).

Definition graduate_metadata_empty (m : GraduateMetadata) : bool :=
  match gm_skills m, gm_education m, gm_experience_years m, gm_latest_experience_year m with
  | None, None, None, None => true
  | _, _, _, _ => false
  end.

Definition job_metadata_empty (m : JobMetadata) : bool :=
  match jm_skills m, jm_education m, jm_experience_years m, jm_updated_at m with
  | None, None, None, None => true
  | _, _, _, _ => false
  end.

(** [_hash_metadata] at a dictionary type [M]: [None] and the empty
    dictionary hash to ["0"]. *)
Definition _hash_metadata {M} (rt : Runtime) (is_empty : M -> bool)
  (dumps : M -> string) (metadata : option M) : string :=
  match metadata with
  | None => "0"
  | Some m => if is_empty m then "0" else sha1_hexdigest rt (dumps m)
  end.

Definition no_options : MatchOptions :=
  {| mo_min_score := None; mo_limit := None; mo_weights := None |}.

Definition job_component (rt : Runtime) (job : JobEmbeddingPayload) : string :=
  let id := match job_id job with Some i => i | None => "" end in
  let embedding := match job_embedding job with Some e => e | None => [] end in
  join "|" [id; _hash_vector rt embedding;
            _hash_metadata rt job_metadata_empty (json_dumps_job rt) (job_metadata job)].

Definition key_components (rt : Runtime) (graduate_embedding : list Q)
  (job_embeddings : list JobEmbeddingPayload)
  (graduate_metadata : option GraduateMetadata)
  (options : option MatchOptions) : list string :=
  [_hash_vector rt graduate_embedding;
   _hash_metadata rt graduate_metadata_empty (json_dumps_graduate rt) graduate_metadata;
   json_dumps_options rt (match options with Some o => o | None => no_options end)]
  ++ map (job_component rt) job_embeddings.

Definition _build_cache_key (rt : Runtime) (graduate_embedding : list Q)
  (job_embeddings : list JobEmbeddingPayload)
  (graduate_metadata : option GraduateMetadata)
  (options : option MatchOptions) : string :=
  sha1_hexdigest rt
    (join "::" (key_components rt graduate_embedding job_embeddings
                  graduate_metadata options)).

(** ** Vector similarity *)

(** [np.dot] of two float32 arrays: the components are cast to float32
    ([np.asarray(vector, dtype=np.float32)]), and every product and every
    partial sum is a float32.  NumPy does not fix the order of the additions;
    they are made here from the last product to the first. *)
Fixpoint np_dot (a b : list Q) : pyfloat :=
  match a, b with
  | x :: a', y :: b' =>
      fadd float32 (fmul float32 (float32 x) (float32 y)) (np_dot a' b')
  | _, _ => Finite 0
  end.

(** [np.linalg.norm]: the root of the array's product with itself. *)
Definition np_norm (rt : Runtime) (v : list Q) : pyfloat :=
  fsqrt (sqrt rt) (np_dot v v).

(** [norm == 0]: a Euclidean norm vanishes exactly when the sum of squares
    under the root does, so the test is made on the sum. *)
Definition norm_is_zero (v : list Q) : bool :=
  match np_dot v v with
  | Finite s => Qeq_bool s 0
  | _ => false
  end.

(** The quotient is never a division by zero: the guard leaves no zero
    norm. *)
Definition cosine_similarity (rt : Runtime) (vec1 vec2 : list Q) : outcome pyfloat :=
  vec1_array <- _validate_vector vec1 ;;
  vec2_array <- _validate_vector vec2 ;;
  let dot_product := np_dot vec1_array vec2_array in
  let norm1 := np_norm rt vec1_array in
  let norm2 := np_norm rt vec2_array in
  if norm_is_zero vec1_array || norm_is_zero vec2_array then Return (Finite 0)
  else Return (fdiv dot_product (fmul float64 norm1 norm2)).

Definition _freshness_score (rt : Runtime) (now : Q) (updated_at : option string) : Q :=
  match updated_at with
  | None | Some EmptyString => 1 # 2
  | Some text => timestamp_freshness rt now text
  end.

(** ** The orchestrator *)

Definition no_job_metadata : JobMetadata :=
  {| jm_skills := None; jm_education := None;
     jm_experience_years := None; jm_updated_at := None |}.

Definition metadata_of (job : JobEmbeddingPayload) : JobMetadata :=
  match job_metadata job with Some m => m | None => no_job_metadata end.

Definition grad_skills (gm : option GraduateMetadata) : option (list string) :=
  match gm with Some m => gm_skills m | None => None end.
Definition grad_education (gm : option GraduateMetadata) : option string :=
  match gm with Some m => gm_education m | None => None end.
Definition grad_experience_years (gm : option GraduateMetadata) : option Q :=
  match gm with Some m => gm_experience_years m | None => None end.

(** The five factor scores of one job, in the [i]-th turn of the loop. *)
Definition job_factors (rt : Runtime) (clk : Clock) (graduate_embedding : list Q)
  (gm : option GraduateMetadata) (i : nat) (embedding : list Q)
  (metadata : JobMetadata) : outcome MatchFactors :=
  cos <- cosine_similarity rt graduate_embedding embedding ;;
  Return {| mf_embedding := np_clip cos 0 1;
            mf_skills := _skills_similarity (grad_skills gm) (jm_skills metadata);
            mf_education := _education_similarity (grad_education gm) (jm_education metadata);
            mf_experience :=
              _experience_similarity (grad_experience_years gm) (jm_experience_years metadata);
            mf_freshness := _freshness_score rt (utc_now clk i) (jm_updated_at metadata) |}.

(** One term of the weighted sum. *)
Definition weighted (score : pyfloat) (w : Q) : pyfloat :=
  fmul float64 score (Finite w).

Definition combined_score (weights : Weights) (f : MatchFactors) : pyfloat :=
  fadd float64
    (fadd float64
       (fadd float64
          (fadd float64
             (weighted (mf_embedding f) (weight weights "embedding"))
             (weighted (Finite (mf_skills f)) (weight weights "skills")))
          (weighted (Finite (mf_education f)) (weight weights "education")))
       (weighted (Finite (mf_experience f)) (weight weights "experience")))
    (weighted (Finite (mf_freshness f)) (weight weights "freshness")).

Definition round_factors (f : MatchFactors) : MatchFactors :=
  {| mf_embedding := fround4 (mf_embedding f);
     mf_skills := round4 (mf_skills f);
     mf_education := round4 (mf_education f);
     mf_experience := round4 (mf_experience f);
     mf_freshness := round4 (mf_freshness f) |}.

(** One turn of the scoring loop: [None] is [continue]. *)
Definition score_job (rt : Runtime) (clk : Clock) (graduate_embedding : list Q)
  (gm : option GraduateMetadata) (weights : Weights) (min_score : Q)
  (i : nat) (job : JobEmbeddingPayload) : outcome (option MatchResult) :=
  match job_id job, job_embedding job with
  | Some (String a s), Some embedding =>
      f <- job_factors rt clk graduate_embedding gm i embedding (metadata_of job) ;;
      let combined := combined_score weights f in
      if flt combined (Finite min_score) then Return None
      else Return (Some {| mr_id := String a s;
                           mr_score := fround4 combined;
                           mr_factors := round_factors f |})
  | _, _ => Return None
  end.

Fixpoint score_jobs (rt : Runtime) (clk : Clock) (graduate_embedding : list Q)
  (gm : option GraduateMetadata) (weights : Weights) (min_score : Q)
  (i : nat) (jobs : list JobEmbeddingPayload) : outcome (list MatchResult) :=
  match jobs with
  | [] => Return []
  | job :: rest =>
      r <- score_job rt clk graduate_embedding gm weights min_score i job ;;
      rs <- score_jobs rt clk graduate_embedding gm weights min_score (S i) rest ;;
      Return (match r with Some m => m :: rs | None => rs end)
  end.

(** [results.sort(key=lambda item: item["score"], reverse=True)].  The sort
    of Python is stable, also with [reverse=True]: on keys that [<] orders
    it yields the one arrangement by descending key in which equal keys keep
    their order, built here by insertion from the right: a result goes
    before the first one that it is not less than. *)
Fixpoint insert_by_score (x : MatchResult) (l : list MatchResult) : list MatchResult :=
  match l with
  | [] => [x]
  | y :: t =>
      if flt (mr_score x) (mr_score y) then y :: insert_by_score x t
      else x :: y :: t
  end.

Definition sort_by_score (l : list MatchResult) : list MatchResult :=
  fold_right insert_by_score [] l.

(** No score of the list is a NaN. *)
Definition nan_free (l : list MatchResult) : bool :=
  forallb (fun r => negb (is_nan (mr_score r))) l.

(** A NaN is less than nothing and nothing is less than it: with one among
    the keys the outcome is the runtime's. *)
Definition sort_results (rt : Runtime) (results : list MatchResult) : list MatchResult :=
  if nan_free results then sort_by_score results else sort_with_nan rt results.

(** From [_prepare_options] to the truncation: what a cache miss computes. *)
Definition rank_jobs (rt : Runtime) (cfg : Config) (clk : Clock)
  (graduate_embedding : list Q) (jobs : list JobEmbeddingPayload)
  (gm : option GraduateMetadata) (options : option MatchOptions)
  : outcome (list MatchResult) :=
  let '(min_score, limit, weights) := _prepare_options cfg options in
  results <- score_jobs rt clk graduate_embedding gm weights min_score 0 jobs ;;
  Return (firstn (Z.to_nat limit) (sort_results rt results)).

Definition compute_matches (rt : Runtime) (cfg : Config) (clk : Clock)
  (graduate_embedding : list Q) (job_embeddings : list JobEmbeddingPayload)
  (graduate_metadata : option GraduateMetadata) (options : option MatchOptions)
  (c : Cache) : outcome (list MatchResult) * Cache :=
  match _validate_vector graduate_embedding with
  | Raise e => (Raise (Failed_to_compute_matches e), c)
  | Return _ =>
      match _deduplicate_jobs job_embeddings with
      | [] => (Return [], c)
      | jobs =>
          let cache_key :=
            _build_cache_key rt graduate_embedding jobs graduate_metadata options in
          match _get_from_cache cache_key (monotonic_read clk) c with
          | (Some cached, c1) => (Return cached, c1)
          | (None, c1) =>
              match rank_jobs rt cfg clk graduate_embedding jobs
                      graduate_metadata options with
              | Raise e => (Raise (Failed_to_compute_matches e), c1)
              | Return results =>
                  match _set_cache cfg cache_key results (monotonic_write clk) c1 with
                  | (Raise e, c2) => (Raise (Failed_to_compute_matches e), c2)
                  | (Return _, c2) => (Return results, c2)
                  end
              end
          end
      end
  end.

(** ** Sequences of cache operations and reachable cache states *)

Inductive cache_op :=
| Op_get (key : string) (now : Q)
| Op_set (key : string) (v : list MatchResult) (now : Q).

Definition run_op (cfg : Config) (op : cache_op) (c : Cache) : Cache :=
  match op with
  | Op_get key now => snd (_get_from_cache key now c)
  | Op_set key v now => snd (_set_cache cfg key v now c)
  end.

(** The cache after each operation of a sequence, in order. *)
Fixpoint cache_trace (cfg : Config) (ops : list cache_op) (c : Cache) : list Cache :=
  match ops with
  | [] => []
  | op :: rest => let c' := run_op cfg op c in c' :: cache_trace cfg rest c'
  end.

(** The states of [_cache] in a process that only calls [compute_matches]:
    the module starts with an empty [OrderedDict]. *)
Inductive reachable (rt : Runtime) (cfg : Config) : Cache -> Prop :=
| reachable_start : reachable rt cfg []
| reachable_call : forall c clk g jobs gm options,
    reachable rt cfg c ->
    reachable rt cfg (snd (compute_matches rt cfg clk g jobs gm options c)).

(** ** The skills scorer as the specification words it *)

(** The members of the set built from a skill list: the trimmed, lowercase
    form of each of its non-empty strings. *)
Definition in_skills (skills : option (list string)) (x : string) : Prop :=
  exists l s, skills = Some l /\ In s l /\ s <> "" /\ x = lower (strip s).

Definition skills_of (skills : option (list string)) : list string :=
  match skills with Some l => skill_set l | None => [] end.

Definition jaccard (g j : list string) : Q :=
  match union g j with
  | [] => 0
  | u => inject_Z (Z.of_nat (List.length (intersection g j)))
         / inject_Z (Z.of_nat (List.length u))
  end.

(** The specification's three cases, on the filtered sets [G] and [J]. *)
Definition skills_similarity_spec (graduate job : option (list string)) : Q :=
  match skills_of graduate with
  | [] => 0
  | g => match skills_of job with
         | [] => 1 # 2
         | j => jaccard g j
         end
  end.

(** ** Order of results *)

(** [x] stands before [y] in [l]. *)
Definition before {A} (x y : A) (l : list A) : Prop :=
  exists l1 l2 l3, l = (l1 ++ x :: l2 ++ y :: l3)%list.




(** ** Requests *)

(** The key under which a call of [compute_matches] is cached. *)
Definition cache_key_of (rt : Runtime) (graduate_embedding : list Q)
  (job_embeddings : list JobEmbeddingPayload)
  (graduate_metadata : option GraduateMetadata)
  (options : option MatchOptions) : string :=
  _build_cache_key rt graduate_embedding (_deduplicate_jobs job_embeddings)
    graduate_metadata options.

(** An embedding of a job that survives deduplication has a length other
    than [EMBEDDING_DIMENSION]. *)
Definition bad_job_dimension (job_embeddings : list JobEmbeddingPayload) : Prop :=
  exists job e,
    In job (_deduplicate_jobs job_embeddings)
    /\ job_embedding job = Some e
    /\ List.length e <> EMBEDDING_DIMENSION.

(** Some embedding the call validates has the wrong length: the graduate's,
    or that of a job left after deduplication. *)
Definition bad_dimension (graduate_embedding : list Q)
  (job_embeddings : list JobEmbeddingPayload) : Prop :=
  List.length graduate_embedding <> EMBEDDING_DIMENSION
  \/ bad_job_dimension job_embeddings.

(** ** The freshness score in detail

    The tail of [_freshness_score] for a non-empty text.  [parse_iso] is
    [datetime.fromisoformat] after the replacement of ["Z"] by ["+00:00"],
    read as seconds since the epoch in UTC ([None] is the [ValueError]);
    [half_pow x] is [0.5 ** x]; [half_life_days] is
    [FRESHNESS_HALF_LIFE_DAYS]; [now] is the wall clock in seconds. *)
Definition freshness_tail (parse_iso : string -> option Q) (half_pow : Q -> Q)
  (half_life_days : Q) (now : Q) (text : string) : Q :=
  match parse_iso text with
  | None => 4 # 10
  | Some timestamp =>
      let age_days := (now - timestamp) / 86400 in
      if Qle_bool age_days 0 then 1
      else if Qle_bool half_life_days 0 then 1 # 2
      else
        let decay := half_pow (age_days / half_life_days) in
        py_min (py_max decay 0) 1
  end.

(** A runtime whose freshness routine is [freshness_tail]. *)
Definition with_freshness (rt : Runtime) (parse_iso : string -> option Q)
  (half_pow : Q -> Q) (half_life_days : Q) : Runtime := {|
  sha1_hexdigest := sha1_hexdigest rt;
  float32_bytes := float32_bytes rt;
  json_dumps_graduate := json_dumps_graduate rt;
  json_dumps_job := json_dumps_job rt;
  json_dumps_options := json_dumps_options rt;
  sqrt := sqrt rt;
  timestamp_freshness := freshness_tail parse_iso half_pow half_life_days;
  sort_with_nan := sort_with_nan rt;
  sort_with_nan_permutes := sort_with_nan_permutes rt |}.




(** ** The request layer ([app/main.py])

    The pydantic models of the two match routes.  A field that is [None] is
    left out by [model_dump(exclude_none=True)], so a model and its dump have
    the same optional fields; an identifier and an embedding are required
    fields of [JobEmbedding]. *)

Record MatchWeightsModel := {
  w_embedding : option Q;
  w_skills : option Q;
  w_education : option Q;
  w_experience : option Q;
  w_freshness : option Q }.

Record MatchOptionsModel := {
  om_min_score : option Q;
  om_limit : option Z;
  om_weights : option MatchWeightsModel }.

Record JobEmbedding := {
  je_id : string;
  je_embedding : list Q;
  je_metadata : option JobMetadata }.

Record MatchRequest := {
  mq_graduate_embedding : list Q;
  mq_job_embeddings : list JobEmbedding;
  mq_graduate_metadata : option GraduateMetadata;
  mq_options : option MatchOptionsModel }.

Record GraduateMatchPayload := {
  gp_id : option string;
  gp_embedding : list Q;
  gp_metadata : option GraduateMetadata }.

Record MatchBatchRequest := {
  bq_graduates : list GraduateMatchPayload;
  bq_job_embeddings : list JobEmbedding;
  bq_options : option MatchOptionsModel }.

Record MatchBatchItem := {
  bi_graduate_id : option string;
  bi_matches : list MatchResult }.

(** [model_dump(exclude_none=True)] of the three models passed on. *)
Definition dump_field (name : string) (v : option Q) : Weights :=
  match v with Some x => [(name, x)] | None => [] end.

Definition dump_weights (w : MatchWeightsModel) : Weights :=
  (dump_field "embedding" (w_embedding w)
   ++ dump_field "skills" (w_skills w)
   ++ dump_field "education" (w_education w)
   ++ dump_field "experience" (w_experience w)
   ++ dump_field "freshness" (w_freshness w))%list.

Definition dump_options (o : MatchOptionsModel) : MatchOptions :=
  {| mo_min_score := om_min_score o;
     mo_limit := om_limit o;
     mo_weights := option_map dump_weights (om_weights o) |}.

Definition dump_job (job : JobEmbedding) : JobEmbeddingPayload :=
  {| job_id := Some (je_id job);
     job_embedding := Some (je_embedding job);
     job_metadata := je_metadata job |}.

(** The [detail] of an [HTTPException]: a fixed text, or a prefix followed
    by the text of the exception caught. *)
Inductive http_detail :=
| Graduate_embedding_is_required
| Job_embeddings_are_required
| Graduates_list_cannot_be_empty
| Error_computing_matches (e : exn)
| Error_computing_batch_matches (e : exn).

Inductive response (A : Type) :=
| Ok (body : A)
| HTTPException (status_code : Z) (detail : http_detail).
Arguments Ok {A} body.
Arguments HTTPException {A} status_code detail.

(** [POST /match]. *)
Definition match_candidate (rt : Runtime) (cfg : Config) (clk : Clock)
  (request : MatchRequest) (c : Cache) : response (list MatchResult) * Cache :=
  match mq_graduate_embedding request with
  | [] => (HTTPException 400 Graduate_embedding_is_required, c)
  | _ =>
      match mq_job_embeddings request with
      | [] => (HTTPException 400 Job_embeddings_are_required, c)
      | _ =>
          match compute_matches rt cfg clk (mq_graduate_embedding request)
                  (map dump_job (mq_job_embeddings request))
                  (mq_graduate_metadata request)
                  (option_map dump_options (mq_options request)) c with
          | (Return matches, c') => (Ok matches, c')
          | (Raise e, c') => (HTTPException 500 (Error_computing_matches e), c')
          end
      end
  end.

(** The loop of [POST /match/batch]: the [i]-th graduate is matched at the
    clock readings [clks i]; the first exception ends the loop. *)
Fixpoint match_graduates (rt : Runtime) (cfg : Config) (clks : nat -> Clock)
  (i : nat) (job_payload : list JobEmbeddingPayload)
  (options_payload : option MatchOptions)
  (graduates : list GraduateMatchPayload) (c : Cache)
  : outcome (list MatchBatchItem) * Cache :=
  match graduates with
  | [] => (Return [], c)
  | graduate :: rest =>
      match compute_matches rt cfg (clks i) (gp_embedding graduate) job_payload
              (gp_metadata graduate) options_payload c with
      | (Raise e, c1) => (Raise e, c1)
      | (Return matches, c1) =>
          match match_graduates rt cfg clks (S i) job_payload options_payload rest c1 with
          | (Raise e, c2) => (Raise e, c2)
          | (Return items, c2) =>
              (Return ({| bi_graduate_id := gp_id graduate;
                          bi_matches := matches |} :: items), c2)
          end
      end
  end.

(** [POST /match/batch]. *)
Definition match_candidates_batch (rt : Runtime) (cfg : Config) (clks : nat -> Clock)
  (request : MatchBatchRequest) (c : Cache)
  : response (list MatchBatchItem) * Cache :=
  match bq_graduates request with
  | [] => (HTTPException 400 Graduates_list_cannot_be_empty, c)
  | _ =>
      match bq_job_embeddings request with
      | [] => (HTTPException 400 Job_embeddings_are_required, c)
      | _ =>
          match match_graduates rt cfg clks 0
                  (map dump_job (bq_job_embeddings request))
                  (option_map dump_options (bq_options request))
                  (bq_graduates request) c with
          | (Return items, c') => (Ok items, c')
          | (Raise e, c') => (HTTPException 500 (Error_computing_batch_matches e), c')
          end
      end
  end.

(** ** Empty and absent dictionaries

    [model_dump(exclude_none=True)] of a model whose fields are all [None]
    is the empty dictionary.  A job record with an empty [metadata]
    dictionary, and the same record without the key: *)
Definition without_empty_metadata (job : JobEmbeddingPayload) : JobEmbeddingPayload :=
  match job_metadata job with
  | Some m =>
      if job_metadata_empty m then
        {| job_id := job_id job; job_embedding := job_embedding job;
           job_metadata := None |}
      else job
  | None => job
  end.

Definition options_empty (o : MatchOptions) : bool :=
  match mo_min_score o, mo_limit o, mo_weights o with
  | None, None, None => true
  | _, _, _ => false
  end.

(** ** Sample data *)

Definition zero_vector : list Q := repeat 0 EMBEDDING_DIMENSION.

Definition plain_job (id : string) (embedding : list Q) : JobEmbeddingPayload :=
  {| job_id := Some id; job_embedding := Some embedding; job_metadata := None |}.

(** Two jobs, ["a"] and ["b"]. *)
Definition pair_jobs (e1 e2 : list Q) : list JobEmbeddingPayload :=
  [plain_job "a" e1; plain_job "b" e2].

(** One job whose identifier spells out the key component of job ["a"] with
    embedding [e1], the separator, and the identifier ["b"]. *)
Definition crafted_job (rt : Runtime) (e1 e2 : list Q) : JobEmbeddingPayload :=
  plain_job ("a|" ++ _hash_vector rt e1 ++ "|0::b") e2.

Definition skilled_job (id : string) (skills : list string) : JobEmbeddingPayload :=
  {| job_id := Some id; job_embedding := Some zero_vector;
     job_metadata := Some {| jm_skills := Some skills; jm_education := None;
                             jm_experience_years := None; jm_updated_at := None |} |}.

Definition skilled_graduate (skills : list string) : GraduateMetadata :=
  {| gm_skills := Some skills; gm_education := None;
     gm_experience_years := None; gm_latest_experience_year := None |}.

Definition min_score_only (m : Q) : MatchOptions :=
  {| mo_min_score := Some m; mo_limit := None; mo_weights := None |}.

(** Only the skills factor counts. *)
Definition skills_only (m : Q) : MatchOptions :=
  {| mo_min_score := Some m; mo_limit := None;
     mo_weights := Some [("embedding", 0); ("skills", 1); ("education", 0);
                         ("experience", 0); ("freshness", 0)] |}.

(** An embedding of the declared dimension with every component [1e30]. *)
Definition huge_vector : list Q := repeat (inject_Z (10 ^ 30)) EMBEDDING_DIMENSION.



(** Two weights of [1e308], each a finite float. *)
Definition huge_weights : MatchOptions :=
  {| mo_min_score := None; mo_limit := None;
     mo_weights := Some [("embedding", inject_Z (10 ^ 308));
                         ("skills", inject_Z (10 ^ 308))] |}.


(** A cache with room for one entry. *)
Definition tiny_config : Config := {|
  MATCH_MIN_SCORE := 3 # 10;
  MATCH_MAX_RESULTS := 50;
  MATCH_CACHE_TTL_SECONDS := 300;
  MATCH_CACHE_MAX_ENTRIES := 1;
  MATCH_WEIGHT_EMBEDDING := 6 # 10;
  MATCH_WEIGHT_SKILLS := 2 # 10;
  MATCH_WEIGHT_EDUCATION := 1 # 10;
  MATCH_WEIGHT_EXPERIENCE := 5 # 100;
  MATCH_WEIGHT_FRESHNESS := 5 # 100 |}.

(** Records that deduplication drops: no identifier, an empty identifier, no
    embedding. *)
Definition malformed_jobs : list JobEmbeddingPayload :=
  [{| job_id := None; job_embedding := Some zero_vector; job_metadata := None |};
   {| job_id := Some ""; job_embedding := Some zero_vector; job_metadata := None |};
   {| job_id := Some "job-3"; job_embedding := None; job_metadata := None |}].

Definition stale_entry : _CacheEntry := {| value := []; expires_at := 5 |}.
Definition fresh_entry : _CacheEntry := {| value := []; expires_at := 50 |}.

(** A graduate with two skills against three jobs, the second one listed
    twice; scored on skills alone, with a minimum of 0.1 and a limit of 0. *)
Definition three_jobs : list JobEmbeddingPayload :=
  [skilled_job "half" ["python"]; skilled_job "full" ["SQL"; "Python"];
   skilled_job "none" ["go"]; skilled_job "full" ["rust"]].

Definition best_only : MatchOptions :=
  {| mo_min_score := Some (1 # 10); mo_limit := Some 0%Z;
     mo_weights := Some [("embedding", 0); ("skills", 1); ("education", 0);
                         ("experience", 0); ("freshness", 0)] |}.

(** A batch of two graduates against one job: the second graduate's
    embedding has one component. *)
Definition two_graduates : MatchBatchRequest :=
  {| bq_graduates :=
       [{| gp_id := Some "g1"; gp_embedding := zero_vector; gp_metadata := None |};
        {| gp_id := Some "g2"; gp_embedding := [1]; gp_metadata := None |}];
     bq_job_embeddings :=
       [{| je_id := "job-1"; je_embedding := zero_vector; je_metadata := None |}];
     bq_options := None |}.

(** Stand-ins for the library routines, to run the definitions. *)
Definition sample_runtime : Runtime := {|
  sha1_hexdigest := fun s => "sha1(" ++ s ++ ")";
  float32_bytes := fun v => if norm_is_zero v then "zeros" else "floats";
  json_dumps_graduate := fun _ => "{graduate}";
  json_dumps_job := fun _ => "{job}";
  json_dumps_options := fun o =>
    match mo_min_score o, mo_limit o, mo_weights o with
    | None, None, None => "{}"
    | _, _, _ => "{options}"
    end;
  sqrt := fun q => q;
  timestamp_freshness := fun _ _ => 1;
  sort_with_nan := fun l => l;
  sort_with_nan_permutes := @Permutation_refl MatchResult |}.

Definition clock_at (t : Q) : Clock :=
  {| monotonic_read := t; monotonic_write := t; utc_now := fun _ => t |}.

(** * Facts *)

Local Open Scope list_scope.

(** ** Comparisons on rationals *)

Lemma Qlt_bool_iff (a b : Q) : Qlt_bool a b = true <-> a < b.
Proof.
  unfold Qlt_bool. rewrite negb_true_iff.
  split; intro H.
  - apply Qnot_le_lt. intro L. apply Qle_bool_iff in L. congruence.
  - destruct (Qle_bool b a) eqn:E; trivial.
    apply Qle_bool_iff in E. exfalso. exact (Qlt_not_le _ _ H E).
Qed.

Lemma Qlt_bool_false_iff (a b : Q) : Qlt_bool a b = false <-> b <= a.
Proof.
  unfold Qlt_bool. rewrite negb_false_iff. apply Qle_bool_iff.
Qed.

Lemma py_max_ge_r (a b : Q) : b <= py_max a b.
Proof.
  unfold py_max. destruct (Qlt_bool a b) eqn:E.
  - apply Qle_refl.
  - now apply Qlt_bool_false_iff.
Qed.

(** ** Floats *)








Lemma fle_flt_false (a b : pyfloat) : fle a b = true -> flt b a = false.
Proof.
  destruct a as [x| | |], b as [y| | |]; cbn; try congruence.
  intro H. apply Qlt_bool_false_iff. now apply Qle_bool_iff.
Qed.

(** ** Sets of strings *)

Lemma mem_In (x : string) (l : list string) : mem x l = true <-> In x l.
Proof.
  unfold mem. rewrite existsb_exists. split.
  - intros [y [Hy E]]. apply String.eqb_eq in E. now subst.
  - intro H. exists x. split; trivial. apply String.eqb_refl.
Qed.

Lemma to_set_In (x : string) (l : list string) : In x (to_set l) <-> In x l.
Proof.
  induction l as [|y t IH]; simpl; [tauto|].
  destruct (mem y (to_set t)) eqn:E.
  - apply mem_In in E. rewrite IH in *. split; [tauto|].
    intros [->|H]; tauto.
  - simpl. tauto.
Qed.

Lemma to_set_NoDup (l : list string) : NoDup (to_set l).
Proof.
  induction l as [|y t IH]; simpl; [constructor|].
  destruct (mem y (to_set t)) eqn:E; trivial.
  constructor; trivial. intro H. apply mem_In in H. congruence.
Qed.

Lemma intersection_In (a b : list string) (x : string) :
  In x (intersection a b) <-> In x a /\ In x b.
Proof. unfold intersection. rewrite filter_In, mem_In. tauto. Qed.

Lemma union_In (a b : list string) (x : string) :
  In x (union a b) <-> In x a \/ In x b.
Proof.
  unfold union. rewrite in_app_iff, filter_In, negb_true_iff.
  split; [tauto|]. intros [H|H]; [tauto|].
  destruct (mem x a) eqn:E; [left; now apply mem_In | tauto].
Qed.

Lemma intersection_NoDup (a b : list string) : NoDup a -> NoDup (intersection a b).
Proof. apply NoDup_filter. Qed.

Lemma union_NoDup (a b : list string) : NoDup a -> NoDup b -> NoDup (union a b).
Proof.
  intros Ha Hb. unfold union. apply NoDup_app.
  - exact Ha.
  - now apply NoDup_filter.
  - intros x Hx H. apply filter_In in H as [_ H].
    apply mem_In in Hx. rewrite Hx in H. discriminate.
Qed.

Lemma skill_set_In (l : list string) (x : string) :
  In x (skill_set l) <-> in_skills (Some l) x.
Proof.
  unfold skill_set, in_skills. rewrite to_set_In, in_map_iff. split.
  - intros [s [E H]]. apply filter_In in H as [H N].
    exists l, s. repeat split; trivial; [|now symmetry].
    intro Z. subst s. discriminate.
  - intros [l' [s [E [H [N X]]]]]. injection E as <-.
    exists s. split; [now symmetry|]. apply filter_In. split; trivial.
    destruct s; [congruence|reflexivity].
Qed.

Lemma skills_of_In (skills : option (list string)) (x : string) :
  In x (skills_of skills) <-> in_skills skills x.
Proof.
  destruct skills as [l|]; simpl.
  - apply skill_set_In.
  - split; [contradiction|]. intros [l [s [E _]]]. discriminate.
Qed.

Lemma skills_of_empty (skills : option (list string)) :
  skills_of skills = [] <-> forall x, ~ in_skills skills x.
Proof.
  split.
  - intros E x H. apply skills_of_In in H. rewrite E in H. contradiction.
  - intro H. destruct (skills_of skills) as [|y t] eqn:E; trivial.
    exfalso. apply (H y), skills_of_In. rewrite E. now left.
Qed.

(** ** The scorers at sample inputs *)

Example education_unconstrained_job :
  _education_similarity (Some "BSc Computer Science") None = 1 # 2.
Proof. reflexivity. Qed.

Example education_same_label :
  _education_similarity (Some " BSc Computer Science") (Some "bsc computer science") = 1.
Proof. reflexivity. Qed.

Example education_substring :
  _education_similarity (Some "Computer Science") (Some "BSc Computer Science") = 7 # 10.
Proof. reflexivity. Qed.

Example experience_two_of_three :
  _experience_similarity (Some 2) (Some 3) == 2 # 3.
Proof. reflexivity. Qed.

Example experience_unconstrained_job : _experience_similarity (Some 2) None = 6 # 10.
Proof. reflexivity. Qed.

Example round4_one_third : round4 (1 # 3) = 3333 # 10000.
Proof. reflexivity. Qed.

Example round4_tie_to_even :
  round4 (5 # 100000) = 0 # 10000 /\ round4 (15 # 100000) = 2 # 10000.
Proof. split; reflexivity. Qed.

Example strip_lower_sample : lower (strip "  TypeScript ") = "typescript".
Proof. reflexivity. Qed.

Example deduplicate_keeps_first :
  map job_id
    (_deduplicate_jobs [plain_job "a" [1]; plain_job "b" [2]; plain_job "a" [3]])
  = [Some "a"; Some "b"]
  /\ map job_embedding
       (_deduplicate_jobs [plain_job "a" [1]; plain_job "b" [2]; plain_job "a" [3]])
     = [Some [1]; Some [2]].
Proof. split; reflexivity. Qed.

(** ** The skills scorer *)

Example skills_same_up_to_case :
  _skills_similarity (Some ["React"; " TypeScript "]) (Some ["react"; "typescript"]) == 1.
Proof. reflexivity. Qed.

Example skills_disjoint :
  _skills_similarity (Some ["React"; "TypeScript"]) (Some ["go"]) == 0.
Proof. reflexivity. Qed.

Example skills_one_of_three :
  _skills_similarity (Some ["python"; "sql"]) (Some ["SQL"; "rust"]) == 1 # 3.
Proof. reflexivity. Qed.

(** C1, as stated, fails: for the graduate list [["python"]] and the job list
    [[""]] the set [J] is empty, so the specification's cases give [0.5]; the
    job list itself is not empty, the scorer goes on to build the two sets
    and returns [0.0] because one of them is empty. *)
Lemma skills_similarity_blank_job_skill :
  ~ (_skills_similarity (Some ["python"]) (Some [""])
     == skills_similarity_spec (Some ["python"]) (Some [""])).
Proof. intro H. vm_compute in H. discriminate H. Qed.

(** The mirror case: a graduate list of one empty string against no job
    list.  [G] is empty, the scorer still answers [0.5]. *)
Lemma skills_similarity_blank_graduate_skill :
  _skills_similarity (Some [""]) None = 1 # 2
  /\ skills_similarity_spec (Some [""]) None = 0.
Proof. split; reflexivity. Qed.

(** C1 (amended): the scorer returns [0.0] when the graduate list is absent or
    empty; else [0.5] when the job list is absent or empty; else [0.0] when
    [G] or [J] has no member; else the Jaccard index of [G] and [J], the
    number of strings in both over the number of strings in either. *)
Theorem skills_similarity_cases (graduate job : option (list string)) :
  (truthy_list graduate = false -> _skills_similarity graduate job = 0)
  /\ (truthy_list graduate = true -> truthy_list job = false ->
      _skills_similarity graduate job = 1 # 2)
  /\ (truthy_list graduate = true -> truthy_list job = true ->
      (forall x, ~ in_skills graduate x) \/ (forall x, ~ in_skills job x) ->
      _skills_similarity graduate job = 0)
  /\ (truthy_list graduate = true -> truthy_list job = true ->
      (exists x, in_skills graduate x) -> (exists x, in_skills job x) ->
      exists both either : list string,
        NoDup both /\ NoDup either
        /\ (forall x, In x both <-> in_skills graduate x /\ in_skills job x)
        /\ (forall x, In x either <-> in_skills graduate x \/ in_skills job x)
        /\ either <> []
        /\ _skills_similarity graduate job
           = inject_Z (Z.of_nat (List.length both))
             / inject_Z (Z.of_nat (List.length either))).
Proof.
  repeat split.
  - destruct graduate as [[|g gl]|]; simpl; intro H; trivial; discriminate.
  - destruct graduate as [[|g gl]|]; simpl; intro H; try discriminate.
    destruct job as [[|j jl]|]; simpl; intro K; trivial; discriminate.
  - destruct graduate as [[|g gl]|]; simpl; intro H; try discriminate.
    destruct job as [[|j jl]|]; simpl; intros K E; try discriminate.
    destruct E as [E|E]; apply skills_of_empty in E; simpl in E; rewrite E;
      [reflexivity | now destruct (skill_set (g :: gl))].
  - destruct graduate as [[|g gl]|]; simpl; intro H; try discriminate.
    destruct job as [[|j jl]|]; simpl; intros K [x Hx] [y Hy]; try discriminate.
    apply skills_of_In in Hx, Hy. simpl in Hx, Hy.
    exists (intersection (skill_set (g :: gl)) (skill_set (j :: jl))),
           (union (skill_set (g :: gl)) (skill_set (j :: jl))).
    split; [apply intersection_NoDup, to_set_NoDup|].
    split; [apply union_NoDup; apply to_set_NoDup|].
    split; [intro z; rewrite intersection_In, !skill_set_In; reflexivity|].
    split; [intro z; rewrite union_In, !skill_set_In; reflexivity|].
    split.
    + intro E. assert (U : In x (union (skill_set (g :: gl)) (skill_set (j :: jl))))
        by (apply union_In; now left).
      rewrite E in U. contradiction.
    + destruct (skill_set (g :: gl)) as [|a la]; [contradiction|].
      destruct (skill_set (j :: jl)) as [|b lb]; [contradiction|].
      reflexivity.
Qed.

(** ** Weight normalisation *)

















(** C5 (the defect): the weights [1e308] for the embedding and for the
    skills are finite floats and their clamped sum is not 0, yet it is beyond
    the range of a float: the sum is [inf], no case of [_normalise_weights]
    catches it, and every prepared weight is [0.0].  The weights do not sum
    to 1, and the embedding factor does not have weight 1. *)
Theorem overflowing_weight_sum_zeroes_every_weight :
  let clamped_total :=
    py_sum (map snd (positive_weights (weights_input default_config (Some huge_weights)))) in
  let weights := snd (_prepare_options default_config (Some huge_weights)) in
  ~ clamped_total == 0
  /\ weights = [("embedding", 0); ("skills", 0); ("education", 0);
                ("experience", 0); ("freshness", 0)]
  /\ ~ py_sum (map snd weights) == 1
  /\ dict_get "embedding" weights <> Some 1.
Proof.
  cbv zeta. split; [|split; [|split]].
  - intro H. vm_compute in H. discriminate H.
  - vm_compute. reflexivity.
  - intro H. vm_compute in H. discriminate H.
  - vm_compute. discriminate.
Qed.

(** ** The result cache *)

Lemma dict_remove_length {V} (k : string) (d : list (string * V)) :
  (List.length (dict_remove k d) <= List.length d)%nat.
Proof. apply filter_length_le. Qed.

Lemma dict_get_remove_length {V} (k : string) (d : list (string * V)) (v : V) :
  dict_get k d = Some v -> (List.length (dict_remove k d) < List.length d)%nat.
Proof.
  unfold dict_get, dict_remove.
  induction d as [|[k' v'] t IH]; simpl; [discriminate|].
  destruct (String.eqb k k') eqn:E; simpl.
  - intros _. apply Nat.lt_succ_r, filter_length_le.
  - intro H. apply IH in H. lia.
Qed.

Lemma dict_get_remove_same {V} (k : string) (d : list (string * V)) :
  dict_get k (dict_remove k d) = None.
Proof.
  unfold dict_get, dict_remove.
  induction d as [|[k' v'] t IH]; simpl; trivial.
  destruct (String.eqb k k') eqn:E; simpl; trivial.
  now rewrite E.
Qed.

Lemma dict_get_remove_other {V} (k k' : string) (d : list (string * V)) :
  k' <> k -> dict_get k' (dict_remove k d) = dict_get k' d.
Proof.
  intro N. unfold dict_get, dict_remove.
  induction d as [|[k0 v0] t IH]; simpl; trivial.
  destruct (String.eqb k k0) eqn:E; simpl.
  - apply String.eqb_eq in E. subst k0.
    apply String.eqb_neq in N. now rewrite N.
  - destruct (String.eqb k' k0); trivial.
Qed.

Lemma move_to_end_length (k : string) (c : Cache) :
  (List.length (move_to_end k c) <= List.length c)%nat.
Proof.
  unfold move_to_end, cache_get. destruct (dict_get k c) as [e|] eqn:E; trivial.
  apply dict_get_remove_length in E. rewrite length_app. simpl. lia.
Qed.

Lemma dict_set_length {V} (k : string) (v : V) (d : list (string * V)) :
  (List.length (dict_set k v d) <= S (List.length d))%nat.
Proof.
  induction d as [|[k' v'] t IH]; simpl; trivial.
  destruct (String.eqb k k'); simpl; lia.
Qed.

Lemma get_from_cache_length (k : string) (now : Q) (c : Cache) :
  (List.length (snd (_get_from_cache k now c)) <= List.length c)%nat.
Proof.
  unfold _get_from_cache. destruct (cache_get k c) as [e|]; trivial.
  destruct (Qlt_bool (expires_at e) now); simpl.
  - apply dict_remove_length.
  - apply move_to_end_length.
Qed.

(** With a capacity that is not negative the eviction loop ends normally,
    within the capacity, and keeps a suffix of the cache. *)
Lemma evict_within (max_entries : Z) (c : Cache) :
  (0 <= max_entries)%Z ->
  exists dropped kept,
    evict max_entries c = (Return tt, kept)
    /\ c = (dropped ++ kept)%list
    /\ (Z.of_nat (List.length kept) <= max_entries)%Z.
Proof.
  intro H. induction c as [|x t IH].
  - exists [], []. simpl. destruct (max_entries <? 0)%Z eqn:E; [lia|].
    repeat split; trivial.
  - cbn [evict]. destruct (max_entries <? Z.of_nat (List.length (x :: t)))%Z eqn:E.
    + destruct IH as [dropped [kept [E1 [E2 E3]]]].
      exists (x :: dropped), kept. rewrite E1, E2. repeat split; trivial.
    + exists [], (x :: t). repeat split; trivial. lia.
Qed.

Lemma set_cache_length (cfg : Config) (k : string) (v : list MatchResult)
  (now : Q) (c : Cache) :
  (0 <= MATCH_CACHE_MAX_ENTRIES cfg)%Z ->
  fst (_set_cache cfg k v now c) = Return tt
  /\ (Z.of_nat (List.length (snd (_set_cache cfg k v now c)))
      <= MATCH_CACHE_MAX_ENTRIES cfg)%Z.
Proof.
  intro H. unfold _set_cache. cbv zeta.
  match goal with
  | |- context [evict ?m ?d] =>
      destruct (evict_within m d H) as [dropped [kept [E [_ L]]]]
  end.
  rewrite E. split; trivial.
Qed.

(** C7: from a cache within the configured capacity (the empty cache of a
    fresh process, for one), the cache is within the capacity after every
    operation of every sequence of reads and writes. *)
Theorem cache_capacity_invariant (cfg : Config) (ops : list cache_op) (c : Cache) :
  (Z.of_nat (List.length c) <= MATCH_CACHE_MAX_ENTRIES cfg)%Z ->
  Forall (fun c' => (Z.of_nat (List.length c') <= MATCH_CACHE_MAX_ENTRIES cfg)%Z)
         (cache_trace cfg ops c).
Proof.
  induction ops as [|op rest IH] in c |- *; intro H; simpl; constructor.
  - destruct op as [k now|k v now]; simpl.
    + pose proof (get_from_cache_length k now c). lia.
    + apply set_cache_length. lia.
  - apply IH. destruct op as [k now|k v now]; simpl.
    + pose proof (get_from_cache_length k now c). lia.
    + apply set_cache_length. lia.
Qed.

(** C8: a read of a key whose entry has expired is a miss, and it removes
    that entry and no other. *)
Theorem expired_entry_is_evicted (key : string) (now : Q) (c : Cache)
  (entry : _CacheEntry) :
  cache_get key c = Some entry ->
  expires_at entry < now ->
  _get_from_cache key now c = (None, dict_remove key c)
  /\ cache_get key (snd (_get_from_cache key now c)) = None
  /\ forall other, other <> key ->
       cache_get other (snd (_get_from_cache key now c)) = cache_get other c.
Proof.
  intros G X. apply Qlt_bool_iff in X.
  assert (E : _get_from_cache key now c = (None, dict_remove key c)).
  { unfold _get_from_cache. now rewrite G, X. }
  rewrite E. cbn [snd]. split; trivial. split.
  - apply dict_get_remove_same.
  - intros other N. now apply dict_get_remove_other.
Qed.

Lemma dict_get_app_last {V} (k : string) (v : V) (d : list (string * V)) :
  dict_mem k d = false -> dict_get k (d ++ [(k, v)]) = Some v.
Proof.
  unfold dict_get, dict_mem.
  induction d as [|[k' v'] t IH]; simpl; intro H.
  - now rewrite String.eqb_refl.
  - apply orb_false_iff in H as [H1 H2]. rewrite H1. now apply IH.
Qed.

Lemma dict_mem_remove {V} (k : string) (d : list (string * V)) :
  dict_mem k (dict_remove k d) = false.
Proof.
  unfold dict_mem, dict_remove.
  induction d as [|[k' v'] t IH]; simpl; trivial.
  destruct (String.eqb k k') eqn:E; simpl; trivial.
  now rewrite E.
Qed.

Lemma dict_mem_get {V} (k : string) (d : list (string * V)) :
  dict_mem k d = false <-> dict_get k d = None.
Proof.
  unfold dict_mem, dict_get.
  induction d as [|[k' v'] t IH]; simpl; [tauto|].
  destruct (String.eqb k k'); simpl; [split; discriminate | exact IH].
Qed.

Lemma dict_set_app_last {V} (k : string) (v v' : V) (d : list (string * V)) :
  dict_mem k d = false -> dict_set k v' (d ++ [(k, v)]) = (d ++ [(k, v')])%list.
Proof.
  unfold dict_mem.
  induction d as [|[k0 v0] t IH]; simpl; intro H.
  - now rewrite String.eqb_refl.
  - apply orb_false_iff in H as [H1 H2]. rewrite H1. f_equal. now apply IH.
Qed.

Lemma dict_set_absent {V} (k : string) (v : V) (d : list (string * V)) :
  dict_mem k d = false -> dict_set k v d = (d ++ [(k, v)])%list.
Proof.
  unfold dict_mem.
  induction d as [|[k0 v0] t IH]; simpl; intro H; trivial.
  apply orb_false_iff in H as [H1 H2]. rewrite H1. f_equal. now apply IH.
Qed.

Lemma move_to_end_get (k : string) (c : Cache) (e : _CacheEntry) :
  cache_get k c = Some e -> cache_get k (move_to_end k c) = Some e.
Proof.
  intro H. unfold move_to_end. rewrite H.
  apply dict_get_app_last, dict_mem_remove.
Qed.

(** A write leaves the new entry last, after the other keys in their order. *)
Lemma set_cache_shape (cfg : Config) (k : string) (v : list MatchResult)
  (now : Q) (c : Cache) :
  _set_cache cfg k v now c
  = evict (MATCH_CACHE_MAX_ENTRIES cfg)
      (dict_remove k c
       ++ [(k, {| value := v;
                  expires_at := now + inject_Z (MATCH_CACHE_TTL_SECONDS cfg) |})])%list.
Proof.
  unfold _set_cache. cbv zeta. f_equal.
  destruct (dict_mem k c) eqn:M.
  - unfold move_to_end, cache_get.
    destruct (dict_get k c) as [e|] eqn:G.
    + apply dict_set_app_last, dict_mem_remove.
    + apply dict_mem_get in G. congruence.
  - rewrite dict_set_absent by trivial. f_equal.
    unfold dict_remove. clear - M. unfold dict_mem in M.
    induction c as [|[k0 v0] t IH]; simpl in *; trivial.
    apply orb_false_iff in M as [M1 M2]. rewrite M1. simpl. f_equal. now apply IH.
Qed.

(** With room for one entry at least, eviction stops before the newest. *)
Lemma evict_keeps_last (max_entries : Z) (d : Cache) (x : string * _CacheEntry) :
  (1 <= max_entries)%Z ->
  exists dropped kept,
    evict max_entries (d ++ [x]) = (Return tt, (kept ++ [x])%list)
    /\ d = (dropped ++ kept)%list.
Proof.
  intro H. induction d as [|y t IH].
  - exists [], []. simpl. destruct (max_entries <? 1)%Z eqn:E; [lia|]. now split.
  - change ((y :: t) ++ [x])%list with (y :: (t ++ [x]))%list. cbn [evict].
    destruct (max_entries <? Z.of_nat (List.length (y :: (t ++ [x])%list)))%Z.
    + destruct IH as [dropped [kept [E1 E2]]].
      exists (y :: dropped), kept. rewrite E1, E2. now split.
    + exists [], (y :: t). now split.
Qed.

Lemma dict_mem_app {V} (k : string) (a b : list (string * V)) :
  dict_mem k (a ++ b) = dict_mem k a || dict_mem k b.
Proof. unfold dict_mem. apply existsb_app. Qed.

(** After a write that ends normally in a cache with room for one entry, the
    key holds the value written. *)
Lemma set_cache_then_get (cfg : Config) (k : string) (v : list MatchResult)
  (now : Q) (c c' : Cache) :
  (1 <= MATCH_CACHE_MAX_ENTRIES cfg)%Z ->
  snd (_set_cache cfg k v now c) = c' ->
  cache_get k c'
  = Some {| value := v; expires_at := now + inject_Z (MATCH_CACHE_TTL_SECONDS cfg) |}.
Proof.
  intros H <-. rewrite set_cache_shape.
  destruct (evict_keeps_last _ (dict_remove k c)
              (k, {| value := v;
                     expires_at := now + inject_Z (MATCH_CACHE_TTL_SECONDS cfg) |}) H)
    as [dropped [kept [E1 E2]]].
  rewrite E1. cbn [snd]. apply dict_get_app_last.
  pose proof (dict_mem_remove k c) as M. rewrite E2, dict_mem_app in M.
  now apply orb_false_iff in M.
Qed.

(** ** Validation and the paths of [compute_matches] *)

Lemma validate_vector_ok (v : list Q) :
  List.length v = EMBEDDING_DIMENSION -> _validate_vector v = Return v.
Proof.
  intro H. unfold _validate_vector. apply Nat.eqb_eq in H. now rewrite H.
Qed.

Lemma validate_vector_bad (v : list Q) :
  List.length v <> EMBEDDING_DIMENSION ->
  _validate_vector v = Raise (ValueError_dimension EMBEDDING_DIMENSION (List.length v)).
Proof.
  intro H. unfold _validate_vector. apply Nat.eqb_neq in H. now rewrite H.
Qed.

Lemma compute_matches_bad_graduate rt cfg clk g jobs gm options c :
  List.length g <> EMBEDDING_DIMENSION ->
  compute_matches rt cfg clk g jobs gm options c
  = (Raise (Failed_to_compute_matches
              (ValueError_dimension EMBEDDING_DIMENSION (List.length g))), c).
Proof.
  intro H. unfold compute_matches. now rewrite (validate_vector_bad g H).
Qed.

Lemma compute_matches_no_jobs rt cfg clk g jobs gm options c :
  List.length g = EMBEDDING_DIMENSION ->
  _deduplicate_jobs jobs = [] ->
  compute_matches rt cfg clk g jobs gm options c = (Return [], c).
Proof.
  intros H E. unfold compute_matches. now rewrite (validate_vector_ok g H), E.
Qed.

(** With a valid graduate embedding and a job left after deduplication, the
    call reads the cache under the request's key; a hit is the answer, a miss
    is followed by the scoring and the write. *)
Lemma compute_matches_reads_cache rt cfg clk g jobs gm options c :
  List.length g = EMBEDDING_DIMENSION ->
  _deduplicate_jobs jobs <> [] ->
  compute_matches rt cfg clk g jobs gm options c
  = let key := cache_key_of rt g jobs gm options in
    match _get_from_cache key (monotonic_read clk) c with
    | (Some cached, c1) => (Return cached, c1)
    | (None, c1) =>
        match rank_jobs rt cfg clk g (_deduplicate_jobs jobs) gm options with
        | Raise e => (Raise (Failed_to_compute_matches e), c1)
        | Return results =>
            match _set_cache cfg key results (monotonic_write clk) c1 with
            | (Raise e, c2) => (Raise (Failed_to_compute_matches e), c2)
            | (Return _, c2) => (Return results, c2)
            end
        end
    end.
Proof.
  intros H N. unfold compute_matches, cache_key_of.
  rewrite (validate_vector_ok g H).
  destruct (_deduplicate_jobs jobs) as [|j js]; [contradiction|reflexivity].
Qed.

(** ** Deduplication *)

Lemma dedup_from_usable seen jobs job :
  In job (dedup_from seen jobs) ->
  exists i, job_usable job = Some i /\ In job jobs /\ ~ In i seen.
Proof.
  induction jobs as [|j rest IH] in seen |- *; simpl; [contradiction|].
  destruct (job_usable j) as [i|] eqn:U.
  - destruct (mem i seen) eqn:M.
    + intro H. destruct (IH _ H) as [i' [U' [I' S']]]. exists i'. tauto.
    + intros [<-|H].
      * exists i. repeat split; auto. intro K. apply mem_In in K. congruence.
      * destruct (IH _ H) as [i' [U' [I' S']]]. exists i'.
        repeat split; auto. intro K. apply S'. now right.
  - intro H. destruct (IH _ H) as [i' [U' [I' S']]]. exists i'. tauto.
Qed.

Lemma job_usable_fields job i :
  job_usable job = Some i ->
  exists a s e, i = String a s /\ job_id job = Some (String a s)
                /\ job_embedding job = Some e.
Proof.
  unfold job_usable. destruct (job_id job) as [[|a s]|]; try discriminate.
  destruct (job_embedding job) as [e|]; try discriminate.
  intro H. injection H as <-. now exists a, s, e.
Qed.

Lemma job_usable_id job i : job_usable job = Some i -> job_id job = Some i.
Proof.
  intro H. destruct (job_usable_fields job i H) as [a [s [e [-> [E _]]]]]. exact E.
Qed.

Lemma dedup_from_NoDup seen jobs : NoDup (map job_id (dedup_from seen jobs)).
Proof.
  induction jobs as [|j rest IH] in seen |- *; simpl; [constructor|].
  destruct (job_usable j) as [i|] eqn:U; [|apply IH].
  destruct (mem i seen); [apply IH|].
  simpl. constructor; [|apply IH].
  rewrite (job_usable_id j i U). intro H.
  apply in_map_iff in H as [j' [E I]].
  destruct (dedup_from_usable _ _ _ I) as [i' [U' [_ N]]].
  apply job_usable_id in U'. rewrite U' in E. injection E as ->.
  apply N. now left.
Qed.

(** After deduplication no identifier occurs twice. *)
Lemma deduplicated_ids_NoDup jobs : NoDup (map job_id (_deduplicate_jobs jobs)).
Proof. apply dedup_from_NoDup. Qed.

(** ** Errors in the scoring loop *)

Lemma score_job_bad_dimension rt clk g gm weights min_score i job e :
  List.length g = EMBEDDING_DIMENSION ->
  job_usable job <> None ->
  job_embedding job = Some e ->
  List.length e <> EMBEDDING_DIMENSION ->
  score_job rt clk g gm weights min_score i job
  = Raise (ValueError_dimension EMBEDDING_DIMENSION (List.length e)).
Proof.
  intros G U E B. unfold score_job, job_usable in *. rewrite E in *.
  destruct (job_id job) as [[|a s]|]; try congruence.
  unfold job_factors, cosine_similarity.
  now rewrite (validate_vector_ok g G), (validate_vector_bad e B).
Qed.

Lemma score_jobs_bad_dimension rt clk g gm weights min_score i jobs job e :
  List.length g = EMBEDDING_DIMENSION ->
  In job jobs ->
  job_usable job <> None ->
  job_embedding job = Some e ->
  List.length e <> EMBEDDING_DIMENSION ->
  exists ex, score_jobs rt clk g gm weights min_score i jobs = Raise ex.
Proof.
  intros G I U E B. induction jobs as [|j rest IH] in i, I |- *; [contradiction|].
  cbn [score_jobs].
  destruct (score_job rt clk g gm weights min_score i j) as [r|ex] eqn:R;
    [|now exists ex].
  destruct I as [->|I].
  - rewrite (score_job_bad_dimension rt clk g gm weights min_score i job e) in R
      by assumption.
    discriminate.
  - destruct (IH (S i) I) as [ex X]. exists ex. cbn [bind]. now rewrite X.
Qed.

Lemma rank_jobs_bad_dimension rt cfg clk g jobs gm options :
  List.length g = EMBEDDING_DIMENSION ->
  bad_job_dimension jobs ->
  exists ex, rank_jobs rt cfg clk g (_deduplicate_jobs jobs) gm options = Raise ex.
Proof.
  intros G [job [e [I [E B]]]]. unfold rank_jobs.
  destruct (_prepare_options cfg options) as [[min_score limit] weights].
  destruct (dedup_from_usable _ _ _ I) as [i [U _]].
  destruct (score_jobs_bad_dimension rt clk g gm weights min_score 0
              (_deduplicate_jobs jobs) job e G I) as [ex X];
    trivial; [congruence|].
  exists ex. now rewrite X.
Qed.

Lemma bad_job_dimension_nonempty jobs :
  bad_job_dimension jobs -> _deduplicate_jobs jobs <> [].
Proof.
  intros [job [e [I _]]] E. rewrite E in I. contradiction.
Qed.

(** Where the dimensions are checked.  A graduate embedding of the wrong
    length makes [compute_matches] raise with the cache as it was, before
    anything else.  The embedding of a job is checked in the scoring loop
    only, after the read of the cache: with a valid graduate embedding and a
    job, left after deduplication, whose embedding has the wrong length, the
    call raises with the cache as it was when the cache holds nothing under
    the request's key; it raises after the read has removed the entry when
    that entry has expired; and an entry that has not expired is returned
    without any check. *)
Theorem dimension_error_aborts rt cfg clk g jobs gm options c :
  (List.length g <> EMBEDDING_DIMENSION ->
   exists ex, compute_matches rt cfg clk g jobs gm options c = (Raise ex, c))
  /\ (List.length g = EMBEDDING_DIMENSION -> bad_job_dimension jobs ->
      let key := cache_key_of rt g jobs gm options in
      match cache_get key c with
      | None =>
          exists ex, compute_matches rt cfg clk g jobs gm options c = (Raise ex, c)
      | Some entry =>
          if Qlt_bool (expires_at entry) (monotonic_read clk) then
            exists ex, compute_matches rt cfg clk g jobs gm options c
                       = (Raise ex, dict_remove key c)
          else
            compute_matches rt cfg clk g jobs gm options c
            = (Return (value entry), move_to_end key c)
      end).
Proof.
  split.
  - intro H. eexists. now apply compute_matches_bad_graduate.
  - intros G B key.
    rewrite (compute_matches_reads_cache rt cfg clk g jobs gm options c G
               (bad_job_dimension_nonempty jobs B)).
    cbv zeta. fold key. unfold _get_from_cache.
    destruct (rank_jobs_bad_dimension rt cfg clk g jobs gm options G B) as [ex X].
    destruct (cache_get key c) as [entry|].
    + destruct (Qlt_bool (expires_at entry) (monotonic_read clk)); trivial.
      rewrite X. now eexists.
    + rewrite X. now eexists.
Qed.

(** A call whose job list deduplicates to nothing still validates the
    graduate embedding first. *)
Lemma no_jobs_bad_graduate rt cfg clk c :
  fst (compute_matches rt cfg clk [1 # 2] [plain_job "" zero_vector] None None c)
  = Raise (Failed_to_compute_matches (ValueError_dimension EMBEDDING_DIMENSION 1)).
Proof. reflexivity. Qed.

(** C9, as stated, fails: with a graduate embedding of one number and a job
    list of one record without identifier, which deduplicates to nothing, the
    call raises, under every configuration and clock, and returns no list. *)
Lemma empty_jobs_invalid_graduate_raises :
  _deduplicate_jobs [plain_job "" zero_vector] = []
  /\ ~ (exists rt cfg clk c,
          compute_matches rt cfg clk [1 # 2] [plain_job "" zero_vector] None None c
          = (Return [], c)).
Proof.
  split; [reflexivity|].
  intros [rt [cfg [clk [c H]]]].
  pose proof (no_jobs_bad_graduate rt cfg clk c) as E. rewrite H in E. discriminate.
Qed.

(** C9 (amended): for a graduate embedding of the declared dimension and a
    job list that deduplicates to nothing, [compute_matches] returns the
    empty list and the cache is as it was. *)
Theorem no_jobs_no_cache_interaction rt cfg clk g jobs gm options c :
  List.length g = EMBEDDING_DIMENSION ->
  _deduplicate_jobs jobs = [] ->
  compute_matches rt cfg clk g jobs gm options c = (Return [], c).
Proof. apply compute_matches_no_jobs. Qed.

(** ** The cache key *)

Lemma append_assoc (a b c : string) : ((a ++ b) ++ c = a ++ (b ++ c))%string.
Proof. induction a as [|x a IH]; simpl; [reflexivity | now rewrite IH]. Qed.

(** The key is a function of the canonical forms it hashes: equal byte
    images, equal serialisations and equal job components give equal keys;
    [None] and the empty dictionary are not told apart. *)
Lemma cache_key_stable rt g g' jobs jobs' gm gm' options options' :
  float32_bytes rt g = float32_bytes rt g' ->
  _hash_metadata rt graduate_metadata_empty (json_dumps_graduate rt) gm
  = _hash_metadata rt graduate_metadata_empty (json_dumps_graduate rt) gm' ->
  match options with Some o => o | None => no_options end
  = match options' with Some o => o | None => no_options end ->
  map (job_component rt) jobs = map (job_component rt) jobs' ->
  _build_cache_key rt g jobs gm options = _build_cache_key rt g' jobs' gm' options'.
Proof.
  intros B M O J. unfold _build_cache_key, key_components, _hash_vector.
  now rewrite B, M, O, J.
Qed.

Lemma pair_jobs_deduplicated e1 e2 :
  _deduplicate_jobs (pair_jobs e1 e2) = pair_jobs e1 e2.
Proof. reflexivity. Qed.

Lemma crafted_job_deduplicated rt e1 e2 :
  _deduplicate_jobs [crafted_job rt e1 e2] = [crafted_job rt e1 e2].
Proof. reflexivity. Qed.

Lemma crafted_job_is_not_the_pair rt e1 e2 : [crafted_job rt e1 e2] <> pair_jobs e1 e2.
Proof. discriminate. Qed.

Lemma join_cons sep p q rest :
  join sep (p :: q :: rest) = (p ++ sep ++ join sep (q :: rest))%string.
Proof. reflexivity. Qed.

Lemma join_after_prefix sep pre a b :
  a <> [] -> b <> [] -> join sep a = join sep b ->
  join sep (pre ++ a) = join sep (pre ++ b).
Proof.
  intros Na Nb E. induction pre as [|p pre IH]; simpl app; trivial.
  destruct (pre ++ a) as [|x xs] eqn:Ea.
  { apply app_eq_nil in Ea as [_ Ea]. contradiction. }
  destruct (pre ++ b) as [|y ys] eqn:Eb.
  { apply app_eq_nil in Eb as [_ Eb]. contradiction. }
  rewrite !join_cons. now rewrite IH.
Qed.

(** The component of the crafted job reads as the components of ["a"] and
    ["b"] around the separator. *)
Lemma crafted_job_component rt e1 e2 :
  job_component rt (crafted_job rt e1 e2)
  = join "::" [job_component rt (plain_job "a" e1);
               job_component rt (plain_job "b" e2)].
Proof.
  unfold job_component, crafted_job, plain_job.
  cbn [job_id job_embedding job_metadata _hash_metadata join].
  cbn [append]. rewrite !append_assoc. reflexivity.
Qed.

(** The crafted job and the pair have the same key. *)
Lemma crafted_job_key rt g gm options e1 e2 :
  cache_key_of rt g [crafted_job rt e1 e2] gm options
  = cache_key_of rt g (pair_jobs e1 e2) gm options.
Proof.
  unfold cache_key_of. rewrite crafted_job_deduplicated, pair_jobs_deduplicated.
  unfold _build_cache_key, key_components. f_equal.
  apply join_after_prefix; try discriminate.
  cbn [map pair_jobs]. now rewrite crafted_job_component.
Qed.

(** C6 (the defect): job identifiers go into the key unescaped, so an
    identifier that contains the separators stands for several components.
    Whatever the digest and the serialisers are, the one job [crafted_job]
    and the two jobs [pair_jobs] are different deduplicated job lists with
    the same cache key, for every graduate embedding, metadata and options. *)
Theorem cache_key_delimiter_collision rt g gm options e1 e2 :
  _deduplicate_jobs [crafted_job rt e1 e2] = [crafted_job rt e1 e2]
  /\ _deduplicate_jobs (pair_jobs e1 e2) = pair_jobs e1 e2
  /\ [crafted_job rt e1 e2] <> pair_jobs e1 e2
  /\ cache_key_of rt g [crafted_job rt e1 e2] gm options
     = cache_key_of rt g (pair_jobs e1 e2) gm options.
Proof.
  split; [apply crafted_job_deduplicated|].
  split; [apply pair_jobs_deduplicated|].
  split; [apply crafted_job_is_not_the_pair|].
  apply crafted_job_key.
Qed.

(** ** A cached answer for a request with a malformed job *)

Lemma zero_vector_length : List.length zero_vector = EMBEDDING_DIMENSION.
Proof. apply repeat_length. Qed.

Lemma crafted_rank rt :
  exists f,
    rank_jobs rt default_config (clock_at 0) zero_vector
      [crafted_job rt [] zero_vector] None (Some (min_score_only 0))
    = Return [{| mr_id := ("a|" ++ _hash_vector rt [] ++ "|0::b")%string;
                 mr_score := Finite (1050 # 10000);
                 mr_factors := f |}].
Proof. vm_compute. eexists. reflexivity. Qed.

(** In a fresh process, the request with the one crafted job is computed and
    stored under its key. *)
Lemma crafted_call_fills_cache rt :
  exists r,
    compute_matches rt default_config (clock_at 0) zero_vector
      [crafted_job rt [] zero_vector] None (Some (min_score_only 0)) []
    = (Return r,
       [(cache_key_of rt zero_vector [crafted_job rt [] zero_vector] None
           (Some (min_score_only 0)),
         {| value := r; expires_at := 0 + inject_Z 300 |})]).
Proof.
  destruct (crafted_rank rt) as [f R].
  eexists.
  rewrite compute_matches_reads_cache
    by (apply zero_vector_length || (rewrite crafted_job_deduplicated; discriminate)).
  cbv zeta. rewrite crafted_job_deduplicated, R.
  generalize (cache_key_of rt zero_vector [crafted_job rt [] zero_vector] None
                (Some (min_score_only 0))).
  intro key. reflexivity.
Qed.

(** One second later the request with the jobs ["a"] and ["b"], the first
    with an empty embedding, has the same key and is answered from the cache. *)
Lemma bad_pair_answered_from_cache rt :
  exists c r c',
    reachable rt default_config c
    /\ compute_matches rt default_config (clock_at 1) zero_vector
         (pair_jobs [] zero_vector) None (Some (min_score_only 0)) c
       = (Return r, c').
Proof.
  destruct (crafted_call_fills_cache rt) as [r E].
  pose proof (reachable_call rt default_config [] (clock_at 0) zero_vector
                [crafted_job rt [] zero_vector] None (Some (min_score_only 0))
                (reachable_start rt default_config)) as RC.
  rewrite E in RC. cbn [snd] in RC.
  pose proof (crafted_job_key rt zero_vector None
                (Some (min_score_only 0)) [] zero_vector) as K.
  set (key := cache_key_of rt zero_vector [crafted_job rt [] zero_vector] None
                (Some (min_score_only 0))) in *.
  exists [(key, {| value := r; expires_at := 0 + inject_Z 300 |})], r,
         (move_to_end key [(key, {| value := r; expires_at := 0 + inject_Z 300 |})]).
  split; [exact RC|].
  rewrite compute_matches_reads_cache
    by (apply zero_vector_length || (rewrite pair_jobs_deduplicated; discriminate)).
  cbv zeta. rewrite <- K. clearbody key.
  unfold _get_from_cache, cache_get, dict_get. cbn [find fst snd].
  rewrite String.eqb_refl. cbn [snd expires_at value]. reflexivity.
Qed.

(** C2 (the defect): the job ["a"] of the request has an empty embedding, so
    the call is to raise and leave the cache alone.  Yet no digest and no
    serialiser make it raise in every state of the cache a process can
    reach: the request has the key of the request with the one crafted job
    (the key collision of C6, [crafted_job_key]), and after that request
    ([crafted_call_fills_cache]) it is answered from the cache with the list
    stored for the crafted job. *)
Lemma cached_answer_masks_bad_dimension :
  bad_dimension zero_vector (pair_jobs [] zero_vector)
  /\ ~ (exists rt, forall c,
          reachable rt default_config c ->
          exists ex,
            compute_matches rt default_config (clock_at 1) zero_vector
              (pair_jobs [] zero_vector) None (Some (min_score_only 0)) c
            = (Raise ex, c)).
Proof.
  split.
  - right. exists (plain_job "a" []), []. split; [now left|]. split; [reflexivity|].
    discriminate.
  - intros [rt H]. destruct (bad_pair_answered_from_cache rt) as [c [r [c' [RC E]]]].
    destruct (H c RC) as [ex X]. rewrite X in E. discriminate.
Qed.

(** ** Ranking *)






Lemma insert_by_score_permutes x l : Permutation (insert_by_score x l) (x :: l).
Proof.
  induction l as [|y t IH]; simpl; [reflexivity|].
  destruct (flt (mr_score x) (mr_score y)); [|reflexivity].
  rewrite IH. apply perm_swap.
Qed.

Lemma sort_by_score_permutes l : Permutation (sort_by_score l) l.
Proof.
  induction l as [|x t IH]; simpl; [reflexivity|].
  rewrite insert_by_score_permutes. now constructor.
Qed.

(** Whatever the scores, the sort arranges the results it is given. *)
Lemma sort_results_permutes rt l : Permutation (sort_results rt l) l.
Proof.
  unfold sort_results. destruct (nan_free l).
  - apply sort_by_score_permutes.
  - apply sort_with_nan_permutes.
Qed.

Lemma sort_results_In rt l z : In z (sort_results rt l) <-> In z l.
Proof.
  split; apply Permutation_in;
    [|symmetry]; apply sort_results_permutes.
Qed.


Lemma before_nil {A} (x y : A) : ~ before x y [].
Proof. intros [l1 [l2 [l3 E]]]. destruct l1; discriminate. Qed.

Lemma before_cons_iff {A} (x y a : A) l :
  before x y (a :: l) <-> (a = x /\ In y l) \/ before x y l.
Proof.
  split.
  - intros [l1 [l2 [l3 E]]]. destruct l1 as [|b l1]; simpl in E; injection E as -> ->.
    + left. split; trivial. apply in_or_app. right. now left.
    + right. now exists l1, l2, l3.
  - intros [[-> H]|[l1 [l2 [l3 ->]]]].
    + apply in_split in H as [l2 [l3 ->]]. now exists [], l2, l3.
    + now exists (a :: l1), l2, l3.
Qed.



Lemma before_In {A} (x y : A) l : before x y l -> In x l /\ In y l.
Proof.
  intros [l1 [l2 [l3 ->]]]. split; apply in_or_app; right.
  - now left.
  - right. apply in_or_app. right. now left.
Qed.

Lemma before_map {A B} (f : A -> B) (x y : A) l :
  before x y l -> before (f x) (f y) (map f l).
Proof.
  intros [l1 [l2 [l3 ->]]]. exists (map f l1), (map f l2), (map f l3).
  rewrite map_app. cbn [map]. now rewrite map_app.
Qed.

(** In a list without repetition, the order of two elements is one way only. *)
Lemma before_asym {A} (x y : A) l : NoDup l -> before x y l -> ~ before y x l.
Proof.
  induction 1 as [|a t N _ IH]; intros H K.
  - now apply before_nil in H.
  - apply before_cons_iff in H, K.
    destruct H as [[-> H]|H], K as [[-> K]|K].
    + contradiction.
    + apply before_In in K as [_ K]. contradiction.
    + apply before_In in H as [_ H]. contradiction.
    + now apply IH.
Qed.

(** So the order of two jobs in the deduplicated input is the order of their
    identifiers: no other two jobs with these identifiers stand the other
    way round. *)
Lemma deduplicated_order_unique jobs j1 j2 j1' j2' :
  before j1 j2 (_deduplicate_jobs jobs) ->
  job_id j1' = job_id j1 -> job_id j2' = job_id j2 ->
  ~ before j2' j1' (_deduplicate_jobs jobs).
Proof.
  intros H E1 E2 K.
  apply (before_map job_id) in H, K. rewrite E1, E2 in K.
  exact (before_asym _ _ _ (deduplicated_ids_NoDup jobs) H K).
Qed.



(** ** The scoring loop *)

Lemma score_job_some rt clk g gm weights min_score i job r :
  score_job rt clk g gm weights min_score i job = Return (Some r) ->
  exists e f,
    job_id job = Some (mr_id r)
    /\ job_embedding job = Some e
    /\ job_factors rt clk g gm i e (metadata_of job) = Return f
    /\ flt (combined_score weights f) (Finite min_score) = false
    /\ mr_score r = fround4 (combined_score weights f)
    /\ mr_factors r = round_factors f.
Proof.
  unfold score_job.
  destruct (job_id job) as [[|a s]|]; try discriminate.
  destruct (job_embedding job) as [e|]; try discriminate.
  destruct (job_factors rt clk g gm i e (metadata_of job)) as [f|ex] eqn:F;
    try discriminate.
  cbn [bind].
  destruct (flt (combined_score weights f) (Finite min_score)) eqn:L;
    try discriminate.
  intro H. injection H as <-. exists e, f. cbn. repeat split; trivial.
Qed.

Lemma score_jobs_cons rt clk g gm weights min_score i job rest rs :
  score_jobs rt clk g gm weights min_score i (job :: rest) = Return rs ->
  exists r rs',
    score_job rt clk g gm weights min_score i job = Return r
    /\ score_jobs rt clk g gm weights min_score (S i) rest = Return rs'
    /\ rs = match r with Some m => m :: rs' | None => rs' end.
Proof.
  cbn [score_jobs].
  destruct (score_job rt clk g gm weights min_score i job) as [r|]; try discriminate.
  cbn [bind].
  destruct (score_jobs rt clk g gm weights min_score (S i) rest) as [rs'|];
    try discriminate.
  cbn [bind]. intro H. injection H as <-. now exists r, rs'.
Qed.

Lemma score_jobs_In rt clk g gm weights min_score i jobs rs r :
  score_jobs rt clk g gm weights min_score i jobs = Return rs ->
  In r rs ->
  exists k job,
    In job jobs /\ score_job rt clk g gm weights min_score k job = Return (Some r).
Proof.
  induction jobs as [|job rest IH] in i, rs |- *.
  - intro H. injection H as <-. contradiction.
  - intros H I. apply score_jobs_cons in H as [o [rs' [H1 [H2 ->]]]].
    destruct o as [m|].
    + destruct I as [<-|I].
      * exists i, job. split; [now left | trivial].
      * destruct (IH _ _ H2 I) as [k [j [Ij Sj]]]. exists k, j. split; [now right|trivial].
    + destruct (IH _ _ H2 I) as [k [j [Ij Sj]]]. exists k, j. split; [now right|trivial].
Qed.


Lemma rank_jobs_inv rt cfg clk g jobs gm options results :
  rank_jobs rt cfg clk g jobs gm options = Return results ->
  exists rs,
    score_jobs rt clk g gm (effective_weights cfg options)
      (effective_min_score cfg options) 0 jobs = Return rs
    /\ results = firstn (Z.to_nat (effective_limit cfg options)) (sort_results rt rs).
Proof.
  unfold rank_jobs, effective_weights, effective_min_score, effective_limit.
  destruct (_prepare_options cfg options) as [[min_score limit] weights]. cbn [fst snd].
  destruct (score_jobs rt clk g gm weights min_score 0 jobs) as [rs|]; try discriminate.
  cbn [bind]. intro H. injection H as <-. now exists rs.
Qed.



Lemma evict_suffix max_entries c :
  exists dropped, c = dropped ++ snd (evict max_entries c).
Proof.
  induction c as [|x t IH]; cbn [evict].
  - exists []. now destruct (max_entries <? Z.of_nat (List.length (@nil (string * _CacheEntry))))%Z.
  - destruct (max_entries <? Z.of_nat (List.length (x :: t)))%Z.
    + destruct IH as [dropped E]. exists (x :: dropped). simpl. now rewrite <- E.
    + now exists [].
Qed.

(** ** Threshold and rounding *)

Lemma firstn_In {A} n (l : list A) x : In x (firstn n l) -> In x l.
Proof.
  intro H. rewrite <- (firstn_skipn n l). apply in_or_app. now left.
Qed.

(** What a call that misses the cache returns is what [rank_jobs] computes. *)
Lemma compute_matches_miss_inv rt cfg clk g jobs gm options c results c' :
  fst (_get_from_cache (cache_key_of rt g jobs gm options) (monotonic_read clk) c)
  = None ->
  compute_matches rt cfg clk g jobs gm options c = (Return results, c') ->
  (_deduplicate_jobs jobs = [] /\ results = [])
  \/ rank_jobs rt cfg clk g (_deduplicate_jobs jobs) gm options = Return results.
Proof.
  intros M E.
  destruct (Nat.eq_dec (List.length g) EMBEDDING_DIMENSION) as [G|G].
  2:{ rewrite compute_matches_bad_graduate in E by trivial. discriminate. }
  destruct (_deduplicate_jobs jobs) as [|j js] eqn:D.
  { rewrite compute_matches_no_jobs in E by trivial. injection E as <- _. now left. }
  right.
  rewrite compute_matches_reads_cache in E by (trivial; rewrite D; discriminate).
  cbv zeta in E.
  destruct (_get_from_cache (cache_key_of rt g jobs gm options)
              (monotonic_read clk) c) as [[cached|] c1]; [discriminate|].
  rewrite D in E.
  destruct (rank_jobs rt cfg clk g (j :: js) gm options) as [rs|ex]; [|discriminate].
  destruct (_set_cache cfg (cache_key_of rt g jobs gm options) rs
              (monotonic_write clk) c1) as [[u|ex] c2]; [|discriminate].
  now injection E as <- _.
Qed.

(** ** Order of the results a call computes *)





(** ** Threshold and rounding *)

(** A graduate with one skill against a job that asks for three, scored on
    skills alone: the combined score is one third. *)
Lemma one_third_is_reported_below_threshold rt :
  exists f c',
    compute_matches rt default_config (clock_at 0) zero_vector
      [skilled_job "job-1" ["python"; "sql"; "rust"]]
      (Some (skilled_graduate ["Python"]))
      (Some (skills_only (33331 # 100000))) []
    = (Return [{| mr_id := "job-1"; mr_score := Finite (3333 # 10000);
                  mr_factors := f |}], c').
Proof. vm_compute. do 2 eexists. reflexivity. Qed.

(** The threshold is applied to the combined score before rounding and the
    score reported is the rounded one.  Every result computed by a call comes
    from a job whose unrounded combined score is not less than the effective
    minimum (as a number it is at least the minimum; a NaN is not less than
    anything), and reports that score rounded to four places; and there is a
    request (a combined score of one third against a minimum of 0.33331)
    whose reported score, 0.3333, is below the effective minimum. *)
Theorem threshold_before_rounding :
  (forall rt cfg clk g jobs gm options c results c',
     fst (_get_from_cache (cache_key_of rt g jobs gm options) (monotonic_read clk) c)
     = None ->
     compute_matches rt cfg clk g jobs gm options c = (Return results, c') ->
     forall r, In r results ->
     exists job k e f,
       In job (_deduplicate_jobs jobs)
       /\ job_id job = Some (mr_id r)
       /\ job_embedding job = Some e
       /\ job_factors rt clk g gm k e (metadata_of job) = Return f
       /\ flt (combined_score (effective_weights cfg options) f)
              (Finite (effective_min_score cfg options)) = false
       /\ (forall x, combined_score (effective_weights cfg options) f = Finite x ->
            effective_min_score cfg options <= x)
       /\ mr_score r = fround4 (combined_score (effective_weights cfg options) f))
  /\ (forall rt, exists r c',
        compute_matches rt default_config (clock_at 0) zero_vector
          [skilled_job "job-1" ["python"; "sql"; "rust"]]
          (Some (skilled_graduate ["Python"]))
          (Some (skills_only (33331 # 100000))) []
        = (Return [r], c')
        /\ flt (mr_score r)
               (Finite (effective_min_score default_config
                          (Some (skills_only (33331 # 100000))))) = true).
Proof.
  split.
  - intros rt cfg clk g jobs gm options c results c' M E r I.
    destruct (compute_matches_miss_inv _ _ _ _ _ _ _ _ _ _ M E) as [[_ ->]|R];
      [contradiction|].
    apply rank_jobs_inv in R as [rs [S ->]].
    apply firstn_In in I. apply -> sort_results_In in I.
    destruct (score_jobs_In _ _ _ _ _ _ _ _ _ _ S I) as [k [job [Ij Sj]]].
    apply score_job_some in Sj as [e [f [H1 [H2 [H3 [H4 [H5 _]]]]]]].
    exists job, k, e, f. repeat split; trivial.
    intros x X. rewrite X in H4. cbn in H4. now apply Qlt_bool_false_iff.
  - intro rt. destruct (one_third_is_reported_below_threshold rt) as [f [c' E]].
    eexists. exists c'. split; [exact E|]. reflexivity.
Qed.

Lemma sort_results_singleton rt r : sort_results rt [r] = [r].
Proof.
  apply Permutation_length_1_inv. symmetry. apply sort_results_permutes.
Qed.

Lemma huge_vector_length : List.length huge_vector = EMBEDDING_DIMENSION.
Proof. apply repeat_length. Qed.

(** The embedding [huge_vector] against itself: the float32 products are
    beyond the range, so the product and both norms are [inf], the cosine
    similarity [inf / inf] is a NaN, and so is the combined score. *)
Lemma huge_vector_scores_nan rt :
  exists f,
    job_factors rt (clock_at 0) huge_vector None 0 huge_vector no_job_metadata = Return f
    /\ combined_score (effective_weights default_config None) f = NaN
    /\ score_jobs rt (clock_at 0) huge_vector None (effective_weights default_config None)
         (effective_min_score default_config None) 0 [plain_job "job-1" huge_vector]
       = Return [{| mr_id := "job-1"; mr_score := NaN; mr_factors := round_factors f |}].
Proof.
  eexists. split; [vm_compute; reflexivity|]. split; vm_compute; reflexivity.
Qed.

(** C10 (the defect): the embedding [huge_vector] is a list of finite floats
    of the declared dimension.  Matched against a job with the same
    embedding, from the empty cache and with the default options, the
    combined score of the job is a NaN: it is not less than the minimum 0.3,
    so the threshold test lets the job through, and it is not at least the
    minimum either.  The job is returned, and the score reported is the
    NaN. *)
Theorem nan_score_passes_threshold rt :
  exists r c' f,
    compute_matches rt default_config (clock_at 0) huge_vector
      [plain_job "job-1" huge_vector] None None []
    = (Return [r], c')
    /\ mr_id r = "job-1"
    /\ job_factors rt (clock_at 0) huge_vector None 0 huge_vector no_job_metadata
       = Return f
    /\ combined_score (effective_weights default_config None) f = NaN
    /\ fle (Finite (effective_min_score default_config None))
           (combined_score (effective_weights default_config None) f) = false
    /\ mr_score r = NaN.
Proof.
  destruct (huge_vector_scores_nan rt) as [f [F [X S]]].
  assert (R : rank_jobs rt default_config (clock_at 0) huge_vector
                [plain_job "job-1" huge_vector] None None
              = Return [{| mr_id := "job-1"; mr_score := NaN;
                           mr_factors := round_factors f |}]).
  { unfold rank_jobs.
    change (_prepare_options default_config None)
      with (effective_min_score default_config None,
            effective_limit default_config None,
            effective_weights default_config None).
    cbv iota beta. rewrite S. cbn [bind]. rewrite sort_results_singleton. reflexivity. }
  eexists. eexists. exists f.
  split.
  - rewrite compute_matches_reads_cache by (apply huge_vector_length || discriminate).
    cbv zeta. cbn [_get_from_cache cache_get dict_get find].
    change (_deduplicate_jobs [plain_job "job-1" huge_vector])
      with [plain_job "job-1" huge_vector].
    rewrite R. reflexivity.
  - split; [reflexivity|]. split; [exact F|]. split; [exact X|].
    split; [rewrite X; reflexivity | reflexivity].
Qed.

(** ** Two calls in a row *)

(** C3, as stated, fails: the two calls return the same list, but for an
    empty job list no digest, configuration or clock makes the second call an
    answer from the cache; the cache holds nothing after the first. *)
Lemma empty_job_list_is_never_cached :
  ~ (exists rt cfg clk1 clk2 r1 c1 r2 c2 entry,
       compute_matches rt cfg clk1 zero_vector [] None None [] = (Return r1, c1)
       /\ compute_matches rt cfg clk2 zero_vector [] None None c1 = (Return r2, c2)
       /\ r2 = r1
       /\ cache_get (cache_key_of rt zero_vector [] None None) c1 = Some entry
       /\ value entry = r2).
Proof.
  intros [rt [cfg [clk1 [clk2 [r1 [c1 [r2 [c2 [entry [E1 [_ [_ [G _]]]]]]]]]]]]].
  rewrite compute_matches_no_jobs in E1 by (apply zero_vector_length || reflexivity).
  injection E1 as _ <-. discriminate.
Qed.

(** What a call that returns leaves under its key, in a cache with room for
    one entry at least: an entry that holds the list returned; and when the
    call missed the cache, the entry expires [MATCH_CACHE_TTL_SECONDS] after
    the write. *)
Lemma returned_list_is_cached rt cfg clk g jobs gm options c0 r1 c1 :
  compute_matches rt cfg clk g jobs gm options c0 = (Return r1, c1) ->
  _deduplicate_jobs jobs <> [] ->
  (1 <= MATCH_CACHE_MAX_ENTRIES cfg)%Z ->
  let key := cache_key_of rt g jobs gm options in
  exists entry,
    cache_get key c1 = Some entry
    /\ value entry = r1
    /\ (fst (_get_from_cache key (monotonic_read clk) c0) = None ->
        expires_at entry
        = monotonic_write clk + inject_Z (MATCH_CACHE_TTL_SECONDS cfg)).
Proof.
  intros E D M key.
  destruct (Nat.eq_dec (List.length g) EMBEDDING_DIMENSION) as [G|G].
  2:{ rewrite compute_matches_bad_graduate in E by trivial. discriminate. }
  rewrite compute_matches_reads_cache in E by trivial. cbv zeta in E. fold key in E.
  unfold _get_from_cache in *.
  destruct (cache_get key c0) as [e0|] eqn:G0.
  - destruct (Qlt_bool (expires_at e0) (monotonic_read clk)).
    + destruct (rank_jobs rt cfg clk g (_deduplicate_jobs jobs) gm options)
        as [rs|ex]; [|discriminate].
      destruct (_set_cache cfg key rs (monotonic_write clk) (dict_remove key c0))
        as [[u|ex] c2] eqn:W; [|discriminate].
      injection E as <- <-. eexists. split.
      * apply (set_cache_then_get cfg key rs (monotonic_write clk)
                 (dict_remove key c0) c2 M). now rewrite W.
      * split; reflexivity.
    + injection E as <- <-. exists e0. split; [now apply move_to_end_get|].
      split; [reflexivity | discriminate].
  - destruct (rank_jobs rt cfg clk g (_deduplicate_jobs jobs) gm options)
      as [rs|ex]; [|discriminate].
    destruct (_set_cache cfg key rs (monotonic_write clk) c0)
      as [[u|ex] c2] eqn:W; [|discriminate].
    injection E as <- <-. eexists. split.
    + apply (set_cache_then_get cfg key rs (monotonic_write clk) c0 c2 M).
      now rewrite W.
    + split; reflexivity.
Qed.

(** C3 (amended): let a first call return a list.  When the job list
    deduplicates to nothing, a second call with the same arguments returns
    the empty list again, without the cache.  Otherwise, when the cache has
    room for one entry at least and the second call reads the cache no later
    than the expiry of the entry the first call left under the key, the
    second call is answered from the cache with the stored list, which is the
    list of the first call. *)
Theorem repeated_call_answered_from_cache rt cfg clk1 clk2 g jobs gm options
  c0 r1 c1 :
  compute_matches rt cfg clk1 g jobs gm options c0 = (Return r1, c1) ->
  let key := cache_key_of rt g jobs gm options in
  (_deduplicate_jobs jobs = [] ->
   compute_matches rt cfg clk2 g jobs gm options c1 = (Return r1, c1))
  /\ (_deduplicate_jobs jobs <> [] ->
      (1 <= MATCH_CACHE_MAX_ENTRIES cfg)%Z ->
      (forall entry, cache_get key c1 = Some entry ->
                     monotonic_read clk2 <= expires_at entry) ->
      exists entry,
        cache_get key c1 = Some entry
        /\ value entry = r1
        /\ _get_from_cache key (monotonic_read clk2) c1 = (Some r1, move_to_end key c1)
        /\ compute_matches rt cfg clk2 g jobs gm options c1
           = (Return r1, move_to_end key c1)).
Proof.
  intros E key.
  destruct (Nat.eq_dec (List.length g) EMBEDDING_DIMENSION) as [G|G].
  2:{ rewrite compute_matches_bad_graduate in E by trivial. discriminate. }
  split.
  - intro D. rewrite compute_matches_no_jobs in E by trivial.
    injection E as <- <-. now apply compute_matches_no_jobs.
  - intros D M X.
    destruct (returned_list_is_cached rt cfg clk1 g jobs gm options c0 r1 c1 E D M)
      as [entry [Ge [V _]]].
    fold key in Ge. exists entry. split; trivial. split; trivial.
    assert (R : _get_from_cache key (monotonic_read clk2) c1
                = (Some r1, move_to_end key c1)).
    { unfold _get_from_cache. rewrite Ge.
      assert (L : Qlt_bool (expires_at entry) (monotonic_read clk2) = false)
        by (apply Qlt_bool_false_iff; now apply X).
      now rewrite L, V. }
    split; trivial.
    rewrite compute_matches_reads_cache by trivial. cbv zeta. fold key. now rewrite R.
Qed.

(** With no room at all a write ends normally and keeps nothing, so the next
    read of the key is a miss. *)
Lemma zero_capacity_keeps_nothing cfg key v now c :
  MATCH_CACHE_MAX_ENTRIES cfg = 0%Z ->
  _set_cache cfg key v now c = (Return tt, []).
Proof.
  intro H. rewrite set_cache_shape, H.
  generalize (dict_remove key c
              ++ [(key, {| value := v;
                           expires_at := now + inject_Z (MATCH_CACHE_TTL_SECONDS cfg) |})]).
  intro d. induction d as [|x t IH]; [reflexivity|exact IH].
Qed.

(** With a negative capacity a write empties the cache and then raises: the
    eviction loop pops from the empty dictionary. *)
Lemma negative_capacity_write_raises cfg key v now c :
  (MATCH_CACHE_MAX_ENTRIES cfg < 0)%Z ->
  _set_cache cfg key v now c = (Raise KeyError_popitem, []).
Proof.
  intro H. rewrite set_cache_shape.
  generalize (dict_remove key c
              ++ [(key, {| value := v;
                           expires_at := now + inject_Z (MATCH_CACHE_TTL_SECONDS cfg) |})]).
  intro d. induction d as [|x t IH]; cbn [evict].
  - destruct (Z.ltb_spec (MATCH_CACHE_MAX_ENTRIES cfg)
                (Z.of_nat (List.length (@nil (string * _CacheEntry)))));
      [reflexivity | cbn in *; lia].
  - destruct (Z.ltb_spec (MATCH_CACHE_MAX_ENTRIES cfg)
                (Z.of_nat (List.length (x :: t)))); [exact IH | lia].
Qed.

(** * The theorems at sample inputs *)

(** Six reads and writes on a cache with room for one entry. *)
Lemma cache_capacity_invariant_witness :
  (Z.of_nat (List.length (@nil (string * _CacheEntry)))
   <= MATCH_CACHE_MAX_ENTRIES tiny_config)%Z
  /\ Forall (fun c' => (Z.of_nat (List.length c') <= MATCH_CACHE_MAX_ENTRIES tiny_config)%Z)
       (cache_trace tiny_config
          [Op_set "k1" [] 0; Op_set "k2" [] 1; Op_get "k1" 2; Op_get "k2" 3;
           Op_set "k3" [] 400; Op_get "k2" 401]
          []).
Proof.
  assert (H : (Z.of_nat (List.length (@nil (string * _CacheEntry)))
               <= MATCH_CACHE_MAX_ENTRIES tiny_config)%Z) by (vm_compute; discriminate).
  split; [exact H|].
  exact (cache_capacity_invariant tiny_config _ [] H).
Defined.

(** A read at instant 10 of an entry that expired at instant 5. *)
Lemma expired_entry_is_evicted_witness :
  cache_get "k" [("j", fresh_entry); ("k", stale_entry)] = Some stale_entry
  /\ expires_at stale_entry < 10
  /\ _get_from_cache "k" 10 [("j", fresh_entry); ("k", stale_entry)]
     = (None, [("j", fresh_entry)])
  /\ cache_get "k" (snd (_get_from_cache "k" 10 [("j", fresh_entry); ("k", stale_entry)]))
     = None.
Proof.
  assert (G : cache_get "k" [("j", fresh_entry); ("k", stale_entry)] = Some stale_entry)
    by reflexivity.
  assert (X : expires_at stale_entry < 10) by reflexivity.
  destruct (expired_entry_is_evicted "k" 10 _ stale_entry G X) as [E [N _]].
  repeat split; trivial.
Defined.

(** Three malformed job records against a cache that holds one entry. *)
Lemma no_jobs_no_cache_interaction_witness :
  List.length zero_vector = EMBEDDING_DIMENSION
  /\ _deduplicate_jobs malformed_jobs = []
  /\ compute_matches sample_runtime default_config (clock_at 0) zero_vector
       malformed_jobs None None [("k", fresh_entry)]
     = (Return [], [("k", fresh_entry)]).
Proof.
  assert (G : List.length zero_vector = EMBEDDING_DIMENSION) by apply zero_vector_length.
  assert (D : _deduplicate_jobs malformed_jobs = []) by reflexivity.
  split; [exact G|]. split; [exact D|].
  exact (no_jobs_no_cache_interaction sample_runtime default_config (clock_at 0)
           zero_vector malformed_jobs None None [("k", fresh_entry)] G D).
Defined.

(** The same request at instants 0 and 1, from the empty cache. *)
Lemma repeated_call_answered_from_cache_witness :
  exists r1 c1,
    compute_matches sample_runtime default_config (clock_at 0) zero_vector
      [plain_job "job-1" zero_vector] None (Some (min_score_only 0)) []
    = (Return r1, c1)
    /\ map mr_id r1 = ["job-1"%string]
    /\ compute_matches sample_runtime default_config (clock_at 1) zero_vector
         [plain_job "job-1" zero_vector] None (Some (min_score_only 0)) c1
       = (Return r1,
          move_to_end
            (cache_key_of sample_runtime zero_vector [plain_job "job-1" zero_vector]
               None (Some (min_score_only 0))) c1).
Proof.
  destruct (compute_matches sample_runtime default_config (clock_at 0) zero_vector
              [plain_job "job-1" zero_vector] None (Some (min_score_only 0)) [])
    as [[r1|ex] c1] eqn:E; [|vm_compute in E; discriminate E].
  exists r1, c1. split; [reflexivity|].
  destruct (repeated_call_answered_from_cache sample_runtime default_config
              (clock_at 0) (clock_at 1) zero_vector [plain_job "job-1" zero_vector]
              None (Some (min_score_only 0)) [] r1 c1 E) as [_ K].
  vm_compute in E. injection E as <- <-.
  split; [reflexivity|].
  destruct K as [entry [_ [_ [_ K]]]].
  - discriminate.
  - vm_compute. discriminate.
  - intros entry G. vm_compute in G. injection G as <-. vm_compute. discriminate.
  - exact K.
Defined.


(** One skill in common out of three. *)
Lemma skills_similarity_cases_witness :
  truthy_list (Some ["python"; "sql"]) = true
  /\ truthy_list (Some ["SQL"; "rust"]) = true
  /\ exists both either : list string,
       NoDup both /\ NoDup either
       /\ (forall x, In x both <->
             in_skills (Some ["python"; "sql"]) x /\ in_skills (Some ["SQL"; "rust"]) x)
       /\ (forall x, In x either <->
             in_skills (Some ["python"; "sql"]) x \/ in_skills (Some ["SQL"; "rust"]) x)
       /\ either <> []
       /\ _skills_similarity (Some ["python"; "sql"]) (Some ["SQL"; "rust"])
          = inject_Z (Z.of_nat (List.length both))
            / inject_Z (Z.of_nat (List.length either)).
Proof.
  split; [reflexivity|]. split; [reflexivity|].
  destruct (skills_similarity_cases (Some ["python"; "sql"]) (Some ["SQL"; "rust"]))
    as [_ [_ [_ K]]].
  apply K; try reflexivity.
  - exists "python". exists ["python"; "sql"], "python".
    repeat split; [now left | discriminate].
  - exists "rust". exists ["SQL"; "rust"], "rust".
    repeat split; [right; now left | discriminate].
Defined.


(** A job with an empty embedding, from the empty cache. *)
Lemma dimension_error_aborts_witness :
  List.length zero_vector = EMBEDDING_DIMENSION
  /\ bad_job_dimension (pair_jobs [] zero_vector)
  /\ exists ex,
       compute_matches sample_runtime default_config (clock_at 0) zero_vector
         (pair_jobs [] zero_vector) None None []
       = (Raise ex, []).
Proof.
  assert (G : List.length zero_vector = EMBEDDING_DIMENSION) by apply zero_vector_length.
  assert (B : bad_job_dimension (pair_jobs [] zero_vector)).
  { exists (plain_job "a" []), []. split; [now left|]. split; [reflexivity|discriminate]. }
  split; [exact G|]. split; [exact B|].
  destruct (dimension_error_aborts sample_runtime default_config (clock_at 0)
              zero_vector (pair_jobs [] zero_vector) None None []) as [_ K].
  exact (K G B).
Defined.

(** A combined score of one third against a minimum of 0.33331. *)
Lemma threshold_before_rounding_witness :
  exists r c',
    compute_matches sample_runtime default_config (clock_at 0) zero_vector
      [skilled_job "job-1" ["python"; "sql"; "rust"]]
      (Some (skilled_graduate ["Python"]))
      (Some (skills_only (33331 # 100000))) []
    = (Return [r], c')
    /\ (exists f,
          flt (combined_score
                 (effective_weights default_config (Some (skills_only (33331 # 100000))))
                 f)
              (Finite (effective_min_score default_config
                         (Some (skills_only (33331 # 100000))))) = false
          /\ mr_score r
             = fround4 (combined_score
                          (effective_weights default_config
                             (Some (skills_only (33331 # 100000)))) f))
    /\ flt (mr_score r)
           (Finite (effective_min_score default_config
                      (Some (skills_only (33331 # 100000))))) = true.
Proof.
  destruct threshold_before_rounding as [A B].
  destruct (B sample_runtime) as [r [c' [E L]]].
  exists r, c'. split; [exact E|]. split; [|exact L].
  destruct (A sample_runtime default_config (clock_at 0) zero_vector
              [skilled_job "job-1" ["python"; "sql"; "rust"]]
              (Some (skilled_graduate ["Python"]))
              (Some (skills_only (33331 # 100000))) [] [r] c' eq_refl E r
              (or_introl eq_refl))
    as [job [k [e [f [_ [_ [_ [_ [M [_ R]]]]]]]]]].
  exists f. split; [exact M | exact R].
Defined.

(** * Further properties of the scorers *)

Lemma py_max_ge_l (a b : Q) : a <= py_max a b.
Proof.
  unfold py_max. destruct (Qlt_bool a b) eqn:E.
  - apply Qlt_le_weak. now apply Qlt_bool_iff.
  - apply Qle_refl.
Qed.

Lemma py_max_lub (a b c : Q) : a <= c -> b <= c -> py_max a b <= c.
Proof. intros Ha Hb. unfold py_max. now destruct (Qlt_bool a b). Qed.

Lemma py_min_le_r (a b : Q) : py_min a b <= b.
Proof.
  unfold py_min. destruct (Qlt_bool b a) eqn:E.
  - apply Qle_refl.
  - now apply Qlt_bool_false_iff.
Qed.

Lemma py_min_glb (a b c : Q) : c <= a -> c <= b -> c <= py_min a b.
Proof. intros Ha Hb. unfold py_min. now destruct (Qlt_bool b a). Qed.

Lemma Qlt_bool_compat (a a' b b' : Q) :
  a == a' -> b == b' -> Qlt_bool a b = Qlt_bool a' b'.
Proof.
  intros Ea Eb. destruct (Qlt_bool a' b') eqn:E.
  - apply Qlt_bool_iff. apply Qlt_bool_iff in E. now rewrite Ea, Eb.
  - apply Qlt_bool_false_iff. apply Qlt_bool_false_iff in E. now rewrite Ea, Eb.
Qed.

Lemma py_max_compat (a a' b b' : Q) :
  a == a' -> b == b' -> py_max a b == py_max a' b'.
Proof.
  intros Ea Eb. unfold py_max. rewrite (Qlt_bool_compat a a' b b' Ea Eb).
  now destruct (Qlt_bool a' b').
Qed.

Lemma Qle_bool_compat (a a' b b' : Q) :
  a == a' -> b == b' -> Qle_bool a b = Qle_bool a' b'.
Proof.
  intros Ea Eb. destruct (Qle_bool a' b') eqn:E.
  - apply Qle_bool_iff. apply Qle_bool_iff in E. now rewrite Ea, Eb.
  - destruct (Qle_bool a b) eqn:F; trivial.
    apply Qle_bool_iff in F. rewrite Ea, Eb in F. apply Qle_bool_iff in F. congruence.
Qed.

(** ** Education *)

(** Two given labels score the same whichever is the graduate's, and they
    score 1 exactly when they are the same text up to case and surrounding
    whitespace, and not blank. *)
Theorem education_similarity_symmetric (g j : string) :
  g <> "" -> j <> "" ->
  _education_similarity (Some g) (Some j) = _education_similarity (Some j) (Some g)
  /\ (_education_similarity (Some g) (Some j) = 1
      <-> lower (strip g) = lower (strip j) /\ lower (strip g) <> "").
Proof.
  intros Ng Nj. destruct g as [|ga gs]; [congruence|].
  destruct j as [|ja js]; [congruence|].
  unfold _education_similarity.
  set (gn := lower (strip (String ga gs))). set (jn := lower (strip (String ja js))).
  rewrite (String.eqb_sym jn gn), (orb_comm (contains jn gn)),
    (orb_comm (negb (nonempty jn))).
  split; [reflexivity|].
  destruct (nonempty gn) eqn:Eg; cbn [negb orb].
  2:{ destruct gn; [|discriminate]. split; [discriminate | intros [_ H]; congruence]. }
  destruct (nonempty jn) eqn:Ej; cbn [negb orb].
  2:{ destruct jn; [|discriminate]. split; [discriminate|].
      intros [H _]. rewrite H in Eg. discriminate. }
  destruct (String.eqb gn jn) eqn:E.
  - apply String.eqb_eq in E. split; [|reflexivity]. intros _. split; trivial.
    intro Z. rewrite Z in Eg. discriminate.
  - apply String.eqb_neq in E.
    destruct (contains gn jn || contains jn gn);
      (split; [discriminate | intros [H _]; contradiction]).
Qed.

(** ** Experience *)


Lemma experience_similarity_by_distance (g g' j : Q) :
  Qabs (g - j) == Qabs (g' - j) ->
  _experience_similarity (Some g) (Some j) == _experience_similarity (Some g') (Some j).
Proof.
  intro E. unfold _experience_similarity.
  rewrite (Qle_bool_compat j j (Qabs (g - j)) (Qabs (g' - j)) (Qeq_refl j) E).
  destruct (Qle_bool j (Qabs (g' - j))); [reflexivity|].
  apply py_max_compat; [reflexivity|]. now rewrite E.
Qed.

(** Only the distance from the requirement counts: a graduate with [d] years
    more than the job asks for scores the same as one with [d] years less. *)
Theorem experience_similarity_distance_only (j d : Q) :
  _experience_similarity (Some (j + d)) (Some j)
  == _experience_similarity (Some (j - d)) (Some j).
Proof.
  apply experience_similarity_by_distance.
  setoid_replace (j + d - j) with d by ring.
  setoid_replace (j - d - j) with (- d) by ring.
  symmetry. apply Qabs_opp.
Qed.


(** ** Skills *)




Lemma same_members_same_length (a b : list string) :
  NoDup a -> NoDup b -> (forall x, In x a <-> In x b) ->
  List.length a = List.length b.
Proof.
  intros Na Nb H. apply Nat.le_antisymm; apply NoDup_incl_length; trivial;
    intros x Hx; now apply H.
Qed.

(** Between two lists that are both given and not empty, the skills score
    does not depend on which one is the graduate's; and it is 1 exactly when
    the two lists give the same set of skills, and at least one. *)
Theorem skills_similarity_symmetric (gl jl : list string) :
  gl <> [] -> jl <> [] ->
  _skills_similarity (Some gl) (Some jl) = _skills_similarity (Some jl) (Some gl)
  /\ (_skills_similarity (Some gl) (Some jl) == 1
      <-> (exists x, in_skills (Some gl) x)
          /\ forall x, in_skills (Some gl) x <-> in_skills (Some jl) x).
Proof.
  intros Ng Nj.
  destruct gl as [|g gl']; [congruence|]. destruct jl as [|j jl']; [congruence|].
  set (gl := g :: gl') in *. set (jl := j :: jl') in *.
  pose proof (to_set_NoDup (map (fun skill => lower (strip skill)) (filter nonempty gl))) as NG.
  pose proof (to_set_NoDup (map (fun skill => lower (strip skill)) (filter nonempty jl))) as NJ.
  fold (skill_set gl) in NG. fold (skill_set jl) in NJ.
  assert (LI : List.length (intersection (skill_set gl) (skill_set jl))
               = List.length (intersection (skill_set jl) (skill_set gl))).
  { apply same_members_same_length; try now apply intersection_NoDup.
    intro x. rewrite !intersection_In. tauto. }
  assert (LU : List.length (union (skill_set gl) (skill_set jl))
               = List.length (union (skill_set jl) (skill_set gl))).
  { apply same_members_same_length; try now apply union_NoDup.
    intro x. rewrite !union_In. tauto. }
  assert (V : _skills_similarity (Some gl) (Some jl)
              = match skill_set gl, skill_set jl with
                | [], _ | _, [] => 0
                | _, _ =>
                    inject_Z (Z.of_nat (List.length (intersection (skill_set gl) (skill_set jl))))
                    / inject_Z (Z.of_nat (List.length (union (skill_set gl) (skill_set jl))))
                end) by reflexivity.
  assert (V' : _skills_similarity (Some jl) (Some gl)
              = match skill_set jl, skill_set gl with
                | [], _ | _, [] => 0
                | _, _ =>
                    inject_Z (Z.of_nat (List.length (intersection (skill_set jl) (skill_set gl))))
                    / inject_Z (Z.of_nat (List.length (union (skill_set jl) (skill_set gl))))
                end) by reflexivity.
  rewrite V, V', <- LI, <- LU. clear V V' LI LU.
  split.
  { destruct (skill_set gl), (skill_set jl); reflexivity. }
  setoid_rewrite <- skill_set_In.
  destruct (skill_set gl) as [|a la] eqn:Eg.
  { split; [discriminate | intros [[x []] _]]. }
  destruct (skill_set jl) as [|b lb] eqn:Ej.
  { split; [discriminate|]. intros [_ H]. destruct (proj1 (H a)). now left. }
  set (G := a :: la) in *. set (J := b :: lb) in *.
  assert (PU : (0 < List.length (union G J))%nat).
  { unfold union, G. rewrite length_app. simpl. lia. }
  assert (MU : 0 < inject_Z (Z.of_nat (List.length (union G J)))).
  { change 0 with (inject_Z 0). rewrite <- Zlt_Qlt. lia. }
  split.
  - intro E.
    assert (L : List.length (intersection G J) = List.length (union G J)).
    { assert (NZ : ~ inject_Z (Z.of_nat (List.length (union G J))) == 0).
      { intro Z0. rewrite Z0 in MU. discriminate. }
      assert (E' : inject_Z (Z.of_nat (List.length (intersection G J)))
                   == inject_Z (Z.of_nat (List.length (union G J)))).
      { setoid_replace (inject_Z (Z.of_nat (List.length (intersection G J))))
          with (inject_Z (Z.of_nat (List.length (intersection G J)))
                / inject_Z (Z.of_nat (List.length (union G J)))
                * inject_Z (Z.of_nat (List.length (union G J)))) by (now field).
        rewrite E. ring. }
      unfold Qeq in E'. cbn [Qnum Qden inject_Z] in E'. apply Nat2Z.inj. lia. }
    assert (I : incl (union G J) (intersection G J)).
    { apply NoDup_length_incl.
      - now apply intersection_NoDup.
      - lia.
      - intros x Hx. apply intersection_In in Hx. apply union_In. tauto. }
    split; [exists a; now left|].
    intro x. split; intro Hx.
    + assert (U : In x (union G J)) by (apply union_In; now left).
      apply I, intersection_In in U. tauto.
    + assert (U : In x (union G J)) by (apply union_In; now right).
      apply I, intersection_In in U. tauto.
  - intros [_ H].
    assert (L : List.length (intersection G J) = List.length (union G J)).
    { apply same_members_same_length.
      - now apply intersection_NoDup.
      - now apply union_NoDup.
      - intro x. rewrite intersection_In, union_In. specialize (H x). tauto. }
    rewrite L. field. intro Z0. rewrite Z0 in MU. discriminate.
Qed.

(** ** Cosine similarity *)

Lemma same_float_refl (a : pyfloat) : same_float a a.
Proof. destruct a; cbn; trivial. reflexivity. Qed.

Lemma Qeq_bool_compat (a a' b b' : Q) :
  a == a' -> b == b' -> Qeq_bool a b = Qeq_bool a' b'.
Proof.
  intros Ea Eb. destruct (Qeq_bool a' b') eqn:E.
  - apply Qeq_bool_iff. apply Qeq_bool_iff in E. now rewrite Ea, Eb.
  - destruct (Qeq_bool a b) eqn:F; trivial.
    apply Qeq_bool_iff in F. rewrite Ea, Eb in F. apply Qeq_bool_iff in F. congruence.
Qed.

Lemma float32_compat (x y : Q) : x == y -> same_float (float32 x) (float32 y).
Proof.
  intro E. unfold float32.
  rewrite (Qle_bool_compat FLT_OVERFLOW FLT_OVERFLOW x y (Qeq_refl _) E).
  destruct (Qle_bool FLT_OVERFLOW y); [exact I|].
  rewrite (Qle_bool_compat x y _ _ E (Qeq_refl _)).
  destruct (Qle_bool y (- FLT_OVERFLOW)); [exact I|].
  assert (A : Qabs x == Qabs y) by now rewrite E.
  rewrite (Qle_bool_compat _ _ FLT_UNDERFLOW FLT_UNDERFLOW A (Qeq_refl _)).
  destruct (Qle_bool (Qabs y) FLT_UNDERFLOW); cbn; [reflexivity | exact E].
Qed.

Lemma float64_compat (x y : Q) : x == y -> same_float (float64 x) (float64 y).
Proof.
  intro E. unfold float64.
  rewrite (Qle_bool_compat DBL_OVERFLOW DBL_OVERFLOW x y (Qeq_refl _) E).
  destruct (Qle_bool DBL_OVERFLOW y); [exact I|].
  rewrite (Qle_bool_compat x y _ _ E (Qeq_refl _)).
  destruct (Qle_bool y (- DBL_OVERFLOW)); [exact I | exact E].
Qed.

Lemma inf_times_compat (n : bool) (x y : Q) : x == y -> inf_times n x = inf_times n y.
Proof.
  intro E. unfold inf_times.
  rewrite (Qeq_bool_compat x y 0 0 E (Qeq_refl _)).
  now rewrite (Qlt_bool_compat x y 0 0 E (Qeq_refl _)).
Qed.

Section Format.

Variable range : Q -> pyfloat.
Hypothesis range_compat : forall x y, x == y -> same_float (range x) (range y).

Lemma fmul_comm (a b : pyfloat) : same_float (fmul range a b) (fmul range b a).
Proof.
  destruct a as [x| | |], b as [y| | |]; cbn; try exact I; try apply same_float_refl.
  apply range_compat. ring.
Qed.

Lemma fmul_compat (a a' b b' : pyfloat) :
  same_float a a' -> same_float b b' ->
  same_float (fmul range a b) (fmul range a' b').
Proof.
  destruct a as [x| | |], a' as [x'| | |]; cbn; try tauto;
    destruct b as [y| | |], b' as [y'| | |]; cbn; try tauto; intros Ea Eb;
    try (rewrite (inf_times_compat _ _ _ Ea); apply same_float_refl);
    try (rewrite (inf_times_compat _ _ _ Eb); apply same_float_refl).
  apply range_compat. now rewrite Ea, Eb.
Qed.

Lemma fadd_compat (a a' b b' : pyfloat) :
  same_float a a' -> same_float b b' ->
  same_float (fadd range a b) (fadd range a' b').
Proof.
  destruct a as [x| | |], a' as [x'| | |]; cbn; try tauto;
    destruct b as [y| | |], b' as [y'| | |]; cbn; try tauto; intros Ea Eb.
  apply range_compat. now rewrite Ea, Eb.
Qed.

End Format.

Lemma fdiv_compat (a a' b b' : pyfloat) :
  same_float a a' -> same_float b b' -> same_float (fdiv a b) (fdiv a' b').
Proof.
  destruct a as [x| | |], a' as [x'| | |]; cbn; try tauto;
    destruct b as [y| | |], b' as [y'| | |]; cbn; try tauto; intros Ea Eb;
    try reflexivity;
    try (rewrite (Qlt_bool_compat y y' 0 0 Eb (Qeq_refl _)); apply same_float_refl).
  apply float64_compat. now rewrite Ea, Eb.
Qed.

Lemma np_dot_comm (a b : list Q) : same_float (np_dot a b) (np_dot b a).
Proof.
  induction a as [|x a IH] in b |- *; destruct b as [|y b]; cbn [np_dot];
    try apply same_float_refl.
  apply (fadd_compat float32 float32_compat); [|apply IH].
  apply (fmul_comm float32 float32_compat).
Qed.

Lemma float32_zero (x : Q) : x == 0 -> float32 x = Finite 0.
Proof.
  intro E. unfold float32.
  rewrite (Qle_bool_compat FLT_OVERFLOW FLT_OVERFLOW x 0 (Qeq_refl _) E).
  rewrite (Qle_bool_compat x 0 _ _ E (Qeq_refl _)).
  assert (A : Qabs x == Qabs 0) by now rewrite E.
  rewrite (Qle_bool_compat _ _ FLT_UNDERFLOW FLT_UNDERFLOW A (Qeq_refl _)).
  reflexivity.
Qed.

(** The product of an array of zeros with itself is zero, so its norm is. *)
Lemma np_dot_zero (a : list Q) : Forall (fun x => x == 0) a -> np_dot a a = Finite 0.
Proof.
  induction 1 as [|x a Hx _ IH]; [reflexivity|].
  cbn [np_dot]. rewrite IH, (float32_zero x Hx). reflexivity.
Qed.

(** Cosine similarity does not depend on the order of its arguments: the two
    calls both raise, or return the same float.  And a vector of zeros of the
    right length has similarity 0 with every vector of the right length:
    there is no division by a zero norm. *)
Theorem cosine_similarity_symmetric (rt : Runtime) (a b : list Q) :
  match cosine_similarity rt a b, cosine_similarity rt b a with
  | Return x, Return y => same_float x y
  | Raise _, Raise _ => True
  | _, _ => False
  end
  /\ (List.length a = EMBEDDING_DIMENSION -> List.length b = EMBEDDING_DIMENSION ->
      Forall (fun x => x == 0) a ->
      cosine_similarity rt a b = Return (Finite 0)
      /\ cosine_similarity rt b a = Return (Finite 0)).
Proof.
  split.
  - unfold cosine_similarity, _validate_vector.
    destruct (List.length a =? EMBEDDING_DIMENSION)%nat,
             (List.length b =? EMBEDDING_DIMENSION)%nat; cbn [bind]; trivial.
    cbv zeta. rewrite (orb_comm (norm_is_zero b)).
    destruct (norm_is_zero a || norm_is_zero b); [reflexivity|].
    apply fdiv_compat; [apply np_dot_comm|].
    apply (fmul_comm float64 float64_compat).
  - intros La Lb Z.
    assert (N : norm_is_zero a = true).
    { unfold norm_is_zero. now rewrite (np_dot_zero a Z). }
    unfold cosine_similarity.
    rewrite (validate_vector_ok a La), (validate_vector_ok b Lb). cbn [bind].
    cbv zeta. rewrite N, orb_true_r. split; reflexivity.
Qed.

(** ** Freshness *)

(** Whatever the parser and the power function return, the freshness score
    computed by [freshness_tail] is within the unit interval; a text that
    does not parse scores 0.4; and a timestamp that is not in the past scores
    1, also when the half-life is zero or negative. *)
Theorem freshness_score_unit (rt : Runtime) (parse_iso : string -> option Q)
  (half_pow : Q -> Q) (half_life_days now : Q) (updated_at : option string) :
  let rt' := with_freshness rt parse_iso half_pow half_life_days in
  (0 <= _freshness_score rt' now updated_at /\ _freshness_score rt' now updated_at <= 1)
  /\ (forall text, updated_at = Some text -> text <> "" -> parse_iso text = None ->
      _freshness_score rt' now updated_at = 4 # 10)
  /\ (forall text timestamp,
        updated_at = Some text -> text <> "" -> parse_iso text = Some timestamp ->
        now <= timestamp ->
        _freshness_score rt' now updated_at = 1).
Proof.
  intro rt'. unfold _freshness_score, rt', with_freshness. cbn [timestamp_freshness].
  split; [|split].
  - destruct updated_at as [[|c s]|]; try (split; discriminate).
    unfold freshness_tail. destruct (parse_iso (String c s)) as [ts|];
      [|split; discriminate].
    cbv zeta. destruct (Qle_bool ((now - ts) / 86400) 0); [split; discriminate|].
    destruct (Qle_bool half_life_days 0); [split; discriminate|].
    split.
    + apply py_min_glb; [apply py_max_ge_r | discriminate].
    + apply py_min_le_r.
  - intros text -> N P. destruct text as [|c s]; [congruence|].
    unfold freshness_tail. now rewrite P.
  - intros text ts -> N P L. destruct text as [|c s]; [congruence|].
    unfold freshness_tail. rewrite P. cbv zeta.
    assert (A : (now - ts) / 86400 <= 0).
    { apply Qle_shift_div_r; [reflexivity|]. rewrite Qmult_0_l.
      apply Qle_minus_iff. apply -> Qle_minus_iff in L.
      setoid_replace (0 + - (now - ts)) with (ts + - now) by ring. exact L. }
    apply Qle_bool_iff in A. now rewrite A.
Qed.


(** * Further properties of deduplication *)

Lemma dedup_from_first_usable seen jobs job :
  In job (dedup_from seen jobs)
  <-> exists pre post i,
        jobs = pre ++ job :: post
        /\ job_usable job = Some i
        /\ ~ In i seen
        /\ forall j, In j pre -> job_usable j <> Some i.
Proof.
  induction jobs as [|j0 rest IH] in seen |- *.
  - simpl. split; [contradiction|]. intros [pre [post [i [E _]]]].
    destruct pre; discriminate.
  - cbn [dedup_from]. destruct (job_usable j0) as [i0|] eqn:U0.
    + destruct (mem i0 seen) eqn:M.
      * apply mem_In in M. rewrite IH. split.
        -- intros [pre [post [i [E [U [S F]]]]]].
           exists (j0 :: pre), post, i. rewrite E. repeat split; trivial.
           intros j [<-|Hj]; [|now apply F]. rewrite U0. intro K. injection K as ->.
           contradiction.
        -- intros [pre [post [i [E [U [S F]]]]]].
           destruct pre as [|p pre]; simpl in E; injection E as -> ->.
           ++ rewrite U in U0. injection U0 as ->. contradiction.
           ++ exists pre, post, i. repeat split; trivial.
              intros j Hj. apply F. now right.
      * assert (N : ~ In i0 seen) by (intro K; apply mem_In in K; congruence).
        simpl. rewrite IH. split.
        -- intros [<-|[pre [post [i [E [U [S F]]]]]]].
           ++ exists [], rest, i0. repeat split; trivial. intros j [].
           ++ exists (j0 :: pre), post, i. rewrite E. repeat split; trivial.
              ** intro K. apply S. now right.
              ** intros j [<-|Hj]; [|now apply F]. rewrite U0. intro K.
                 injection K as ->. apply S. now left.
        -- intros [pre [post [i [E [U [S F]]]]]].
           destruct pre as [|p pre]; simpl in E; injection E as -> ->; [now left|].
           right. exists pre, post, i. repeat split; trivial.
           ++ intros [<-|K]; [|contradiction]. apply (F p); [now left | exact U0].
           ++ intros j Hj. apply F. now right.
    + rewrite IH. split.
      * intros [pre [post [i [E [U [S F]]]]]].
        exists (j0 :: pre), post, i. rewrite E. repeat split; trivial.
        intros j [<-|Hj]; [|now apply F]. rewrite U0. discriminate.
      * intros [pre [post [i [E [U [S F]]]]]].
        destruct pre as [|p pre]; simpl in E; injection E as -> ->.
        -- rewrite U in U0. discriminate.
        -- exists pre, post, i. repeat split; trivial.
           intros j Hj. apply F. now right.
Qed.

(** Deduplication keeps, for every identifier, the first record that has
    this identifier and an embedding, and nothing else: a record is kept
    exactly when it has a non-empty identifier and an embedding and no
    earlier record of the input has both this identifier and an embedding. *)
Theorem deduplicate_keeps_first_usable jobs job :
  In job (_deduplicate_jobs jobs)
  <-> exists pre post i,
        jobs = pre ++ job :: post
        /\ job_usable job = Some i
        /\ forall j, In j pre -> job_usable j <> Some i.
Proof.
  unfold _deduplicate_jobs. rewrite dedup_from_first_usable. split.
  - intros [pre [post [i [E [U [_ F]]]]]]. now exists pre, post, i.
  - intros [pre [post [i [E [U F]]]]]. exists pre, post, i.
    repeat split; trivial. intros [].
Qed.

Lemma dedup_from_covers seen jobs i :
  (exists job, In job jobs /\ job_usable job = Some i) -> ~ In i seen ->
  In (Some i) (map job_id (dedup_from seen jobs)).
Proof.
  induction jobs as [|j0 rest IH] in seen |- *; intros [job [I U]] S;
    [contradiction|].
  cbn [dedup_from]. destruct (job_usable j0) as [i0|] eqn:U0.
  - destruct (mem i0 seen) eqn:M.
    + apply IH; trivial. destruct I as [<-|I]; [|now exists job].
      rewrite U in U0. injection U0 as ->. apply mem_In in M. contradiction.
    + destruct (String.eqb i0 i) eqn:E.
      * apply String.eqb_eq in E. subst i0. left. now apply job_usable_id.
      * apply String.eqb_neq in E. right. apply IH.
        -- destruct I as [<-|I]; [|now exists job]. rewrite U in U0.
           injection U0 as ->. congruence.
        -- intros [K|K]; [congruence | contradiction].
  - apply IH; trivial. destruct I as [<-|I]; [|now exists job]. congruence.
Qed.

(** The identifiers after deduplication are the identifiers of the usable
    records of the input, each exactly once. *)
Theorem deduplicated_ids_are_the_usable_ids jobs :
  NoDup (map job_id (_deduplicate_jobs jobs))
  /\ forall i,
       In (Some i) (map job_id (_deduplicate_jobs jobs))
       <-> exists job, In job jobs /\ job_usable job = Some i.
Proof.
  split; [apply dedup_from_NoDup|]. intro i. split.
  - intro H. apply in_map_iff in H as [job [E I]].
    destruct (dedup_from_usable _ _ _ I) as [i' [U [I' _]]].
    exists job. split; trivial. rewrite (job_usable_id job i' U) in E. now rewrite <- E.
  - intro H. apply dedup_from_covers; trivial. intros [].
Qed.

Lemma dedup_from_fixed seen l :
  (forall j, In j l -> exists i, job_usable j = Some i /\ ~ In i seen) ->
  NoDup (map job_id l) ->
  dedup_from seen l = l.
Proof.
  induction l as [|j rest IH] in seen |- *; intros H N; [reflexivity|].
  cbn [dedup_from]. destruct (H j (or_introl eq_refl)) as [i [U S]]. rewrite U.
  destruct (mem i seen) eqn:M; [apply mem_In in M; contradiction|].
  f_equal. inversion N as [|? ? X N']; subst. apply IH; trivial.
  intros j' Hj'. destruct (H j' (or_intror Hj')) as [i' [U' S']].
  exists i'. split; trivial. intros [<-|K]; [|contradiction].
  apply X. rewrite (job_usable_id j i U), <- (job_usable_id j' i U').
  now apply in_map.
Qed.

Lemma deduplicate_twice jobs :
  _deduplicate_jobs (_deduplicate_jobs jobs) = _deduplicate_jobs jobs.
Proof.
  apply dedup_from_fixed; [|apply dedup_from_NoDup].
  intros j Hj. destruct (dedup_from_usable _ _ _ Hj) as [i [U _]].
  exists i. split; trivial. intros [].
Qed.

Lemma dedup_from_before seen jobs a b :
  before a b (dedup_from seen jobs) -> before a b jobs.
Proof.
  induction jobs as [|j0 rest IH] in seen |- *; cbn [dedup_from]; intro H.
  - now apply before_nil in H.
  - apply before_cons_iff.
    destruct (job_usable j0) as [i0|]; [|right; now apply (IH seen)].
    destruct (mem i0 seen); [right; now apply (IH seen)|].
    apply before_cons_iff in H as [[-> H]|H].
    + left. split; trivial. now destruct (dedup_from_usable _ _ _ H) as [_ [_ [I _]]].
    + right. now apply (IH (i0 :: seen)).
Qed.

(** Deduplicating twice is deduplicating once, the records kept stand in
    the order of the input, and [compute_matches] does with a job list what
    it does with the deduplicated list: records dropped by deduplication
    change neither the answer nor the cache. *)
Theorem deduplicated_request_is_the_same_request rt cfg clk g jobs gm options c :
  _deduplicate_jobs (_deduplicate_jobs jobs) = _deduplicate_jobs jobs
  /\ (forall a b, before a b (_deduplicate_jobs jobs) -> before a b jobs)
  /\ compute_matches rt cfg clk g (_deduplicate_jobs jobs) gm options c
     = compute_matches rt cfg clk g jobs gm options c.
Proof.
  split; [apply deduplicate_twice|]. split; [intros a b; apply dedup_from_before|].
  unfold compute_matches. now rewrite deduplicate_twice.
Qed.

(** * Further properties of the results *)



Lemma sort_results_NoDup rt l :
  NoDup (map mr_id l) -> NoDup (map mr_id (sort_results rt l)).
Proof.
  apply Permutation_NoDup, Permutation_map. symmetry. apply sort_results_permutes.
Qed.

Lemma firstn_NoDup {A} n (l : list A) : NoDup l -> NoDup (firstn n l).
Proof.
  intro H. rewrite <- (firstn_skipn n l) in H. now apply NoDup_app_remove_r in H.
Qed.


Lemma score_jobs_NoDup rt clk g gm weights min_score i jobs rs :
  score_jobs rt clk g gm weights min_score i jobs = Return rs ->
  NoDup (map job_id jobs) -> NoDup (map mr_id rs).
Proof.
  induction jobs as [|job rest IH] in i, rs |- *; intros H N.
  - injection H as <-. constructor.
  - apply score_jobs_cons in H as [o [rs' [H1 [H2 ->]]]].
    inversion N as [|? ? X N']; subst. specialize (IH _ _ H2 N').
    destruct o as [m|]; trivial. simpl. constructor; trivial.
    intro K. apply in_map_iff in K as [r [E I]].
    destruct (score_jobs_In _ _ _ _ _ _ _ _ _ _ H2 I) as [k [j [Ij Sj]]].
    apply score_job_some in H1 as [e1 [f1 [Id1 _]]].
    apply score_job_some in Sj as [e2 [f2 [Id2 _]]].
    apply X. rewrite Id1, <- E, <- Id2. now apply in_map.
Qed.

(** In a list computed by a call, no job comes twice, and every result
    carries the identifier of a usable record of the input. *)
Theorem computed_results_are_distinct_jobs rt cfg clk g jobs gm options c results c' :
  fst (_get_from_cache (cache_key_of rt g jobs gm options) (monotonic_read clk) c)
  = None ->
  compute_matches rt cfg clk g jobs gm options c = (Return results, c') ->
  NoDup (map mr_id results)
  /\ forall r, In r results ->
       exists job, In job jobs /\ job_usable job = Some (mr_id r).
Proof.
  intros M E.
  destruct (compute_matches_miss_inv _ _ _ _ _ _ _ _ _ _ M E) as [[_ ->]|R].
  { split; [constructor | contradiction]. }
  apply rank_jobs_inv in R as [rs [S ->]]. split.
  - rewrite <- firstn_map. apply firstn_NoDup, sort_results_NoDup.
    exact (score_jobs_NoDup _ _ _ _ _ _ _ _ _ S (dedup_from_NoDup [] jobs)).
  - intros r I. apply firstn_In in I. apply -> sort_results_In in I.
    destruct (score_jobs_In _ _ _ _ _ _ _ _ _ _ S I) as [k [job [Ij Sj]]].
    apply score_job_some in Sj as [e [f [Id _]]].
    destruct (dedup_from_usable _ _ _ Ij) as [i [U [I' _]]].
    exists job. split; trivial. rewrite (job_usable_id job i U) in Id.
    now rewrite U, Id.
Qed.



(** ** Rounding and the unit interval *)

Lemma round_half_even_cases q :
  (round_half_even q = Qfloor q /\ q - inject_Z (Qfloor q) <= 1 # 2)
  \/ (round_half_even q = (Qfloor q + 1)%Z /\ 1 # 2 <= q - inject_Z (Qfloor q)).
Proof.
  unfold round_half_even. cbv zeta.
  destruct (Qlt_bool (q - inject_Z (Qfloor q)) (1 # 2)) eqn:A.
  - left. split; trivial. apply Qlt_le_weak. now apply Qlt_bool_iff.
  - apply Qlt_bool_false_iff in A.
    destruct (Qlt_bool (1 # 2) (q - inject_Z (Qfloor q))) eqn:B.
    + right. now split.
    + apply Qlt_bool_false_iff in B. destruct (Z.even (Qfloor q)); [left|right]; now split.
Qed.

Lemma round_half_even_error q :
  - (1 # 2) <= inject_Z (round_half_even q) - q
  /\ inject_Z (round_half_even q) - q <= 1 # 2.
Proof.
  pose proof (Qfloor_le q) as L. pose proof (Qlt_floor q) as U.
  rewrite inject_Z_plus in U. change (inject_Z 1) with 1 in U.
  destruct (round_half_even_cases q) as [[-> H]|[-> H]].
  - split; lra.
  - rewrite inject_Z_plus. change (inject_Z 1) with 1. split; lra.
Qed.

Lemma round4_as_quotient x :
  round4 x == inject_Z (round_half_even (x * 10000)) / 10000.
Proof. unfold round4. apply Qmake_Qdiv. Qed.

(** The score reported differs from the score computed by half a unit of the
    fourth decimal at most. *)
Lemma round4_error x :
  x - (1 # 20000) <= round4 x /\ round4 x <= x + (1 # 20000).
Proof.
  destruct (round_half_even_error (x * 10000)) as [L U].
  rewrite round4_as_quotient.
  set (n := inject_Z (round_half_even (x * 10000))) in *.
  split.
  - apply Qle_shift_div_l; [reflexivity|]. lra.
  - apply Qle_shift_div_r; [reflexivity|]. lra.
Qed.










(** The effective minimum is within the unit interval, and a score reported
    by a call that computes is never less than the minimum less half a unit
    of the fourth decimal: when it is a number, it is that much at least. *)
Theorem reported_score_near_threshold rt cfg clk g jobs gm options c results c' :
  fst (_get_from_cache (cache_key_of rt g jobs gm options) (monotonic_read clk) c)
  = None ->
  compute_matches rt cfg clk g jobs gm options c = (Return results, c') ->
  (0 <= effective_min_score cfg options /\ effective_min_score cfg options <= 1)
  /\ forall r, In r results ->
       flt (mr_score r) (Finite (effective_min_score cfg options - (1 # 20000))) = false
       /\ forall x, mr_score r = Finite x ->
            effective_min_score cfg options - (1 # 20000) <= x.
Proof.
  intros M E. split.
  - unfold effective_min_score, _prepare_options. cbn [fst]. split.
    + apply py_max_ge_l.
    + apply py_max_lub; [discriminate | apply py_min_le_r].
  - intros r I.
    destruct (compute_matches_miss_inv _ _ _ _ _ _ _ _ _ _ M E) as [[_ ->]|R];
      [contradiction|].
    apply rank_jobs_inv in R as [rs [S ->]].
    apply firstn_In in I. apply -> sort_results_In in I.
    destruct (score_jobs_In _ _ _ _ _ _ _ _ _ _ S I) as [k [job [Ij Sj]]].
    apply score_job_some in Sj as [e [f [_ [_ [_ [T [Sc _]]]]]]].
    rewrite Sc.
    destruct (combined_score (effective_weights cfg options) f) as [q| | |];
      cbn in T |- *; try discriminate; try (split; [reflexivity | discriminate]).
    apply Qlt_bool_false_iff in T. destruct (round4_error q) as [L _].
    split.
    + apply Qlt_bool_false_iff. lra.
    + intros x X. injection X as <-. lra.
Qed.

(** * Further properties of the result cache *)

Lemma evict_skipn (max_entries : Z) (d : Cache) :
  (0 <= max_entries)%Z ->
  evict max_entries d
  = (Return tt, skipn (List.length d - Z.to_nat max_entries) d).
Proof.
  intro H. induction d as [|x t IH]; cbn [evict].
  - destruct (Z.ltb_spec max_entries (Z.of_nat (List.length (@nil (string * _CacheEntry)))));
      [cbn in *; lia | reflexivity].
  - destruct (Z.ltb_spec max_entries (Z.of_nat (List.length (x :: t)))) as [L|L].
    + rewrite IH. cbn [List.length] in *.
      replace (S (List.length t) - Z.to_nat max_entries)%nat
        with (S (List.length t - Z.to_nat max_entries)) by lia.
      reflexivity.
    + cbn [List.length] in *.
      replace (S (List.length t) - Z.to_nat max_entries)%nat with 0%nat by lia.
      reflexivity.
Qed.

(** A write is least-recently-used eviction: with a capacity that is not
    negative it ends normally, and the cache is then the other entries in
    their order followed by the entry written, less as many entries from the
    front as exceed the capacity. *)
Theorem write_keeps_the_most_recent cfg key v now c :
  (0 <= MATCH_CACHE_MAX_ENTRIES cfg)%Z ->
  let entry := {| value := v;
                  expires_at := now + inject_Z (MATCH_CACHE_TTL_SECONDS cfg) |} in
  let written := dict_remove key c ++ [(key, entry)] in
  _set_cache cfg key v now c
  = (Return tt,
     skipn (List.length written - Z.to_nat (MATCH_CACHE_MAX_ENTRIES cfg)) written).
Proof.
  intros H entry written. rewrite set_cache_shape. now apply evict_skipn.
Qed.

(** A value written is the value read, until it expires: with room for one
    entry at least, a read of the key no later than [MATCH_CACHE_TTL_SECONDS]
    after the write returns the value written, and a later read returns
    nothing. *)
Theorem write_then_read cfg key v now now' c :
  (1 <= MATCH_CACHE_MAX_ENTRIES cfg)%Z ->
  let c' := snd (_set_cache cfg key v now c) in
  (now' <= now + inject_Z (MATCH_CACHE_TTL_SECONDS cfg) ->
   fst (_get_from_cache key now' c') = Some v)
  /\ (now + inject_Z (MATCH_CACHE_TTL_SECONDS cfg) < now' ->
      fst (_get_from_cache key now' c') = None).
Proof.
  intros H c'.
  pose proof (set_cache_then_get cfg key v now c c' H eq_refl) as G.
  unfold _get_from_cache. rewrite G. cbn [expires_at value]. split; intro T.
  - apply Qlt_bool_false_iff in T. now rewrite T.
  - apply Qlt_bool_iff in T. now rewrite T.
Qed.

Lemma dict_get_app {V} (k : string) (a b : list (string * V)) :
  dict_get k (a ++ b)
  = match dict_get k a with Some v => Some v | None => dict_get k b end.
Proof.
  unfold dict_get. induction a as [|[k0 v0] t IH]; simpl; trivial.
  destruct (String.eqb k k0); trivial.
Qed.

Lemma hit_shape key now c v :
  fst (_get_from_cache key now c) = Some v ->
  exists entry,
    cache_get key c = Some entry /\ value entry = v
    /\ snd (_get_from_cache key now c) = dict_remove key c ++ [(key, entry)].
Proof.
  unfold _get_from_cache. destruct (cache_get key c) as [entry|] eqn:G; [|discriminate].
  destruct (Qlt_bool (expires_at entry) now); [discriminate|].
  cbn [fst snd]. intro E. injection E as <-. unfold move_to_end. rewrite G.
  now exists entry.
Qed.

(** A hit changes the order of the cache and nothing else: the value
    returned is the one stored, every key holds afterwards the entry it held
    before, with the expiry it had (a read does not extend the life of an
    entry), and the entry read is now the last of the cache, the last to be
    evicted. *)
Theorem hit_only_reorders key now c v :
  fst (_get_from_cache key now c) = Some v ->
  (forall k, cache_get k (snd (_get_from_cache key now c)) = cache_get k c)
  /\ exists entry,
       cache_get key c = Some entry /\ value entry = v
       /\ snd (_get_from_cache key now c) = dict_remove key c ++ [(key, entry)].
Proof.
  intro H. destruct (hit_shape key now c v H) as [entry [G [V S]]].
  split; [|now exists entry].
  intro k. rewrite S. unfold cache_get in *. rewrite dict_get_app.
  destruct (String.eqb k key) eqn:K.
  - apply String.eqb_eq in K. subst k. rewrite dict_get_remove_same, G.
    unfold dict_get. simpl. now rewrite String.eqb_refl.
  - apply String.eqb_neq in K. rewrite (dict_get_remove_other key k c K).
    destruct (dict_get k c); trivial. unfold dict_get. simpl.
    apply String.eqb_neq in K. now rewrite K.
Qed.

Lemma evict_keeps_last_two (max_entries : Z) (d : Cache) (x y : string * _CacheEntry) :
  (2 <= max_entries)%Z ->
  exists dropped kept,
    evict max_entries (d ++ [x; y]) = (Return tt, kept ++ [x; y])
    /\ d = dropped ++ kept.
Proof.
  intro H. induction d as [|z t IH].
  - exists [], []. simpl. destruct (Z.ltb_spec max_entries 2); [lia | now split].
  - change ((z :: t) ++ [x; y]) with (z :: (t ++ [x; y])). cbn [evict].
    destruct (max_entries <? Z.of_nat (List.length (z :: (t ++ [x; y]))))%Z.
    + destruct IH as [dropped [kept [E1 E2]]].
      exists (z :: dropped), kept. rewrite E1, E2. now split.
    + exists [], (z :: t). now split.
Qed.

Lemma dict_remove_app {V} (k : string) (a b : list (string * V)) :
  dict_remove k (a ++ b) = dict_remove k a ++ dict_remove k b.
Proof. unfold dict_remove. apply filter_app. Qed.

(** A read protects an entry from the next eviction: in a cache with room
    for two entries at least, an entry that was just read is still there,
    unchanged, after a write under any other key, however full the cache. *)
Theorem entry_read_survives_next_write cfg key other v w now now' c :
  (2 <= MATCH_CACHE_MAX_ENTRIES cfg)%Z ->
  fst (_get_from_cache key now c) = Some v ->
  other <> key ->
  cache_get key (snd (_set_cache cfg other w now' (snd (_get_from_cache key now c))))
  = cache_get key c.
Proof.
  intros H G N.
  destruct (hit_shape key now c v G) as [entry [Ge [_ ->]]].
  rewrite set_cache_shape, dict_remove_app, <- app_assoc.
  assert (R : dict_remove other [(key, entry)] = [(key, entry)]).
  { unfold dict_remove. simpl. apply String.eqb_neq in N. now rewrite N. }
  rewrite R. cbn [app].
  match goal with
  | |- context [evict ?m (?d ++ [?x; ?y])] =>
      destruct (evict_keeps_last_two m d x y H) as [dropped [kept [E1 E2]]]
  end.
  rewrite E1. cbn [snd]. rewrite Ge. unfold cache_get. rewrite dict_get_app.
  assert (F : dict_get key kept = None).
  { apply dict_mem_get.
    assert (M : dict_mem key (dict_remove other (dict_remove key c)) = false).
    { apply dict_mem_get. rewrite dict_get_remove_other by congruence.
      apply dict_get_remove_same. }
    rewrite E2, dict_mem_app in M. now apply orb_false_iff in M. }
  rewrite F. unfold dict_get. simpl. now rewrite String.eqb_refl.
Qed.

Lemma evict_raise max_entries d e c' : evict max_entries d = (Raise e, c') -> c' = [].
Proof.
  induction d as [|x t IH]; cbn [evict].
  - destruct (max_entries <? _)%Z; intro H; now injection H.
  - destruct (max_entries <? _)%Z; [exact IH | discriminate].
Qed.

(** A call that raises adds nothing to the cache and changes no entry: what
    the cache holds afterwards it held before. *)
Theorem failed_call_adds_nothing rt cfg clk g jobs gm options c e c' :
  compute_matches rt cfg clk g jobs gm options c = (Raise e, c') ->
  forall kv, In kv c' -> In kv c.
Proof.
  intro E.
  destruct (Nat.eq_dec (List.length g) EMBEDDING_DIMENSION) as [G|G].
  2:{ rewrite compute_matches_bad_graduate in E by trivial. now injection E as _ <-. }
  destruct (_deduplicate_jobs jobs) as [|j js] eqn:D.
  { rewrite compute_matches_no_jobs in E by trivial. discriminate. }
  rewrite compute_matches_reads_cache in E by (trivial; rewrite D; discriminate).
  cbv zeta in E. unfold _get_from_cache in E.
  set (key := cache_key_of rt g jobs gm options) in *.
  assert (T : forall c1 : Cache,
            (forall kv, In kv c1 -> In kv c) ->
            match rank_jobs rt cfg clk g (_deduplicate_jobs jobs) gm options with
            | Return results =>
                match _set_cache cfg key results (monotonic_write clk) c1 with
                | (Return _, c2) => (Return results, c2)
                | (Raise e0, c2) => (Raise (Failed_to_compute_matches e0), c2)
                end
            | Raise e0 => (Raise (Failed_to_compute_matches e0), c1)
            end = (Raise e, c') ->
            forall kv, In kv c' -> In kv c).
  { intros c1 S. destruct (rank_jobs rt cfg clk g (_deduplicate_jobs jobs) gm options)
      as [results|ex].
    - unfold _set_cache. cbv zeta.
      match goal with |- context [evict ?m ?d] => destruct (evict m d) as [[u|ex] c2] eqn:V end;
        [discriminate|].
      intro K. injection K as _ <-. apply evict_raise in V. subst c2. intros kv [].
    - intro K. now injection K as _ <-. }
  destruct (cache_get key c) as [entry|].
  - destruct (Qlt_bool (expires_at entry) (monotonic_read clk)); [|discriminate].
    apply (T _ (fun kv H => proj1 (proj1 (filter_In _ _ _) H)) E).
  - apply (T c (fun kv H => H) E).
Qed.

(** * Properties of the match routes *)

(** [POST /match] answers 400 exactly when the graduate embedding or the
    job list is empty, and then leaves the cache alone; a graduate embedding
    that is not empty but has the wrong length is answered 500, a server
    error, also with the cache as it was. *)
Theorem match_candidate_status rt cfg clk request c :
  ((mq_graduate_embedding request = [] \/ mq_job_embeddings request = [])
   <-> exists detail,
         fst (match_candidate rt cfg clk request c) = HTTPException 400 detail)
  /\ (mq_graduate_embedding request = [] \/ mq_job_embeddings request = [] ->
      snd (match_candidate rt cfg clk request c) = c)
  /\ (mq_graduate_embedding request <> [] -> mq_job_embeddings request <> [] ->
      List.length (mq_graduate_embedding request) <> EMBEDDING_DIMENSION ->
      match_candidate rt cfg clk request c
      = (HTTPException 500
           (Error_computing_matches
              (Failed_to_compute_matches
                 (ValueError_dimension EMBEDDING_DIMENSION
                    (List.length (mq_graduate_embedding request))))), c)).
Proof.
  unfold match_candidate.
  destruct (mq_graduate_embedding request) as [|x g] eqn:G.
  { split; [|split].
    - split; [intros _; now eexists | intros _; now left].
    - reflexivity.
    - congruence. }
  destruct (mq_job_embeddings request) as [|j js] eqn:J.
  { split; [|split].
    - split; [intros _; now eexists | intros _; now right].
    - reflexivity.
    - congruence. }
  split; [|split].
  - split; [intros [H|H]; discriminate|].
    intros [detail H].
    destruct (compute_matches rt cfg clk (x :: g) (map dump_job (j :: js))
                (mq_graduate_metadata request)
                (option_map dump_options (mq_options request)) c) as [[ms|e] c'];
      discriminate.
  - intros [H|H]; discriminate.
  - intros _ _ L. now rewrite compute_matches_bad_graduate.
Qed.

Lemma match_graduates_ids rt cfg clks i job_payload options_payload graduates c items c' :
  match_graduates rt cfg clks i job_payload options_payload graduates c
  = (Return items, c') ->
  map bi_graduate_id items = map gp_id graduates.
Proof.
  induction graduates as [|graduate rest IH] in i, c, items, c' |- *;
    cbn [match_graduates].
  - intro H. now injection H as <- _.
  - destruct (compute_matches rt cfg (clks i) (gp_embedding graduate) job_payload
                (gp_metadata graduate) options_payload c) as [[ms|e] c1]; [|discriminate].
    destruct (match_graduates rt cfg clks (S i) job_payload options_payload rest c1)
      as [[items'|e] c2] eqn:R; [|discriminate].
    intro H. injection H as <- _. simpl. f_equal. exact (IH _ _ _ _ R).
Qed.

Lemma match_graduates_fails_at rt cfg clks i job_payload options_payload
  before_it graduate after_it c items c1 e c2 :
  match_graduates rt cfg clks i job_payload options_payload before_it c
  = (Return items, c1) ->
  compute_matches rt cfg (clks (i + List.length before_it)%nat) (gp_embedding graduate)
    job_payload (gp_metadata graduate) options_payload c1 = (Raise e, c2) ->
  match_graduates rt cfg clks i job_payload options_payload
    (before_it ++ graduate :: after_it) c
  = (Raise e, c2).
Proof.
  induction before_it as [|g0 rest IH] in i, c, items |- *; cbn [match_graduates app].
  - intro H. injection H as _ <-. rewrite Nat.add_0_r. intro F. now rewrite F.
  - destruct (compute_matches rt cfg (clks i) (gp_embedding g0) job_payload
                (gp_metadata g0) options_payload c) as [[ms|e0] c0]; [|discriminate].
    destruct (match_graduates rt cfg clks (S i) job_payload options_payload rest c0)
      as [[items'|e0] c0'] eqn:R; [|discriminate].
    intro H. injection H as _ <-. intro F.
    cbn [List.length] in F. rewrite <- Nat.add_succ_comm in F.
    now rewrite (IH _ _ _ R F).
Qed.

(** [POST /match/batch] is all or nothing for the response, not for the
    cache.  A request that is answered carries one item for every graduate,
    in the order given, under the graduate's identifier.  When the call for
    one graduate raises, the whole request is answered 500 with no item,
    and the cache is as the calls for the graduates before it, and the
    failing call, left it. *)
Theorem batch_is_all_or_nothing rt cfg clks request c :
  (forall items c',
     match_candidates_batch rt cfg clks request c = (Ok items, c') ->
     map bi_graduate_id items = map gp_id (bq_graduates request))
  /\ (forall before_it graduate after_it items c1 e c2,
        bq_graduates request = before_it ++ graduate :: after_it ->
        bq_job_embeddings request <> [] ->
        match_graduates rt cfg clks 0 (map dump_job (bq_job_embeddings request))
          (option_map dump_options (bq_options request)) before_it c
        = (Return items, c1) ->
        compute_matches rt cfg (clks (List.length before_it)) (gp_embedding graduate)
          (map dump_job (bq_job_embeddings request)) (gp_metadata graduate)
          (option_map dump_options (bq_options request)) c1
        = (Raise e, c2) ->
        match_candidates_batch rt cfg clks request c
        = (HTTPException 500 (Error_computing_batch_matches e), c2)).
Proof.
  unfold match_candidates_batch. split.
  - intros items c'. destruct (bq_graduates request) as [|g0 gs] eqn:G; [discriminate|].
    destruct (bq_job_embeddings request) as [|j js]; [discriminate|].
    destruct (match_graduates rt cfg clks 0 (map dump_job (j :: js))
                (option_map dump_options (bq_options request)) (g0 :: gs) c)
      as [[items'|e] c''] eqn:R; [|discriminate].
    intro H. injection H as <- _. exact (match_graduates_ids _ _ _ _ _ _ _ _ _ _ R).
  - intros before_it graduate after_it items c1 e c2 G J B F.
    rewrite G. destruct (before_it ++ graduate :: after_it) as [|g0 gs] eqn:A.
    { destruct before_it; discriminate. }
    destruct (bq_job_embeddings request) as [|j js]; [congruence|].
    rewrite <- A.
    now rewrite (match_graduates_fails_at rt cfg clks 0 _ _ before_it graduate
                   after_it c items c1 e c2 B F).
Qed.

(** A batch of one graduate is the single route, when the graduate embedding
    is not empty: the same matches, or the same status, and the same cache.
    For an empty graduate embedding the two routes differ: the single route
    answers 400, the batch route 500. *)
Theorem batch_of_one_is_match_candidate rt cfg clk id g gm jobs options c :
  let single := match_candidate rt cfg clk
                  {| mq_graduate_embedding := g; mq_job_embeddings := jobs;
                     mq_graduate_metadata := gm; mq_options := options |} c in
  let batch := match_candidates_batch rt cfg (fun _ => clk)
                 {| bq_graduates := [{| gp_id := id; gp_embedding := g;
                                        gp_metadata := gm |}];
                    bq_job_embeddings := jobs; bq_options := options |} c in
  (g <> [] ->
   snd single = snd batch
   /\ match fst single, fst batch with
      | Ok matches, Ok items =>
          items = [{| bi_graduate_id := id; bi_matches := matches |}]
      | HTTPException s1 _, HTTPException s2 _ => s1 = s2
      | _, _ => False
      end)
  /\ (g = [] -> jobs <> [] ->
      (exists d, single = (HTTPException 400 d, c))
      /\ exists d, batch = (HTTPException 500 d, c)).
Proof.
  intros single batch. unfold single, batch, match_candidate, match_candidates_batch.
  cbn [mq_graduate_embedding mq_job_embeddings mq_graduate_metadata mq_options
       bq_graduates bq_job_embeddings bq_options].
  split.
  - intro N. destruct g as [|x g']; [congruence|].
    destruct jobs as [|j js]; [split; reflexivity|].
    cbn [match_graduates gp_embedding gp_metadata gp_id].
    destruct (compute_matches rt cfg clk (x :: g') (map dump_job (j :: js)) gm
                (option_map dump_options options) c) as [[ms|e] c1];
      split; reflexivity.
  - intros -> J. destruct jobs as [|j js]; [congruence|]. split; [now eexists|].
    cbn [match_graduates gp_embedding gp_metadata gp_id].
    rewrite compute_matches_bad_graduate by discriminate. now eexists.
Qed.

(** * Empty and absent dictionaries *)

Lemma job_metadata_empty_inv m :
  job_metadata_empty m = true -> m = no_job_metadata.
Proof.
  destruct m as [[s|] [e|] [x|] [u|]]; cbn; intro H; try discriminate H; reflexivity.
Qed.

Lemma without_empty_metadata_fields job :
  job_id (without_empty_metadata job) = job_id job
  /\ job_embedding (without_empty_metadata job) = job_embedding job
  /\ metadata_of (without_empty_metadata job) = metadata_of job.
Proof.
  unfold without_empty_metadata, metadata_of.
  destruct (job_metadata job) as [m|] eqn:M; [|rewrite M; auto].
  destruct (job_metadata_empty m) eqn:E; [|rewrite M; auto].
  cbn. apply job_metadata_empty_inv in E. subst m. auto.
Qed.

Lemma without_empty_metadata_usable job :
  job_usable (without_empty_metadata job) = job_usable job.
Proof.
  unfold job_usable.
  destruct (without_empty_metadata_fields job) as [-> [-> _]]. reflexivity.
Qed.

Lemma without_empty_metadata_dedup jobs : forall seen,
  dedup_from seen (map without_empty_metadata jobs)
  = map without_empty_metadata (dedup_from seen jobs).
Proof.
  induction jobs as [|job rest IH]; intro seen; [reflexivity|].
  cbn [map dedup_from]. rewrite without_empty_metadata_usable.
  destruct (job_usable job) as [i|]; [|apply IH].
  destruct (mem i seen); [apply IH|].
  cbn [map]. rewrite IH. reflexivity.
Qed.

Lemma without_empty_metadata_component rt job :
  job_component rt (without_empty_metadata job) = job_component rt job.
Proof.
  unfold job_component.
  destruct (without_empty_metadata_fields job) as [-> [-> _]].
  f_equal.
  unfold without_empty_metadata.
  destruct (job_metadata job) as [m|] eqn:M; [|rewrite M; reflexivity].
  destruct (job_metadata_empty m) eqn:E; [|rewrite M; reflexivity].
  cbn. rewrite E. reflexivity.
Qed.

Lemma without_empty_metadata_score rt clk g gm weights min_score jobs : forall i,
  score_jobs rt clk g gm weights min_score i (map without_empty_metadata jobs)
  = score_jobs rt clk g gm weights min_score i jobs.
Proof.
  induction jobs as [|job rest IH]; intro i; [reflexivity|].
  cbn [map score_jobs]. rewrite IH.
  replace (score_job rt clk g gm weights min_score i (without_empty_metadata job))
    with (score_job rt clk g gm weights min_score i job); [reflexivity|].
  unfold score_job.
  destruct (without_empty_metadata_fields job) as [-> [-> ->]]. reflexivity.
Qed.

Lemma empty_graduate_metadata_rank rt cfg clk g jobs options :
  rank_jobs rt cfg clk g jobs
    (Some {| gm_skills := None; gm_education := None; gm_experience_years := None;
             gm_latest_experience_year := None |}) options
  = rank_jobs rt cfg clk g jobs None options.
Proof.
  unfold rank_jobs. destruct (_prepare_options cfg options) as [[m l] w].
  f_equal. generalize 0%nat.
  induction jobs as [|job rest IH]; intro i; [reflexivity|].
  cbn [score_jobs]. rewrite IH. reflexivity.
Qed.

(** An empty dictionary counts as an absent one, throughout: a call with an
    empty graduate metadata or an empty options dictionary, or with jobs
    whose metadata is an empty dictionary, is the call without them, with
    the same cache key, the same answer and the same cache afterwards. *)
Theorem empty_dictionary_is_absent rt cfg clk g jobs gm options c :
  (forall m, graduate_metadata_empty m = true ->
     compute_matches rt cfg clk g jobs (Some m) options c
     = compute_matches rt cfg clk g jobs None options c)
  /\ (forall o, options_empty o = true ->
        compute_matches rt cfg clk g jobs gm (Some o) c
        = compute_matches rt cfg clk g jobs gm None c)
  /\ compute_matches rt cfg clk g (map without_empty_metadata jobs) gm options c
     = compute_matches rt cfg clk g jobs gm options c.
Proof.
  split; [|split].
  - intros m E.
    destruct m as [[s|] [e|] [x|] [y|]]; cbn in E; try discriminate E.
    unfold compute_matches.
    destruct (_validate_vector g); [|reflexivity].
    destruct (_deduplicate_jobs jobs) as [|job kept]; [reflexivity|].
    rewrite empty_graduate_metadata_rank. reflexivity.
  - intros o E.
    destruct o as [[m|] [l|] [w|]]; cbn in E; try discriminate E.
    reflexivity.
  - unfold compute_matches, _deduplicate_jobs.
    rewrite without_empty_metadata_dedup.
    destruct (_validate_vector g); [|reflexivity].
    generalize (dedup_from [] jobs). intro kept.
    assert (K : _build_cache_key rt g (map without_empty_metadata kept) gm options
                = _build_cache_key rt g kept gm options).
    { unfold _build_cache_key, key_components. rewrite map_map.
      do 3 f_equal. apply map_ext. intro j. apply without_empty_metadata_component. }
    assert (R : rank_jobs rt cfg clk g (map without_empty_metadata kept) gm options
                = rank_jobs rt cfg clk g kept gm options).
    { unfold rank_jobs. destruct (_prepare_options cfg options) as [[m l] w].
      rewrite without_empty_metadata_score. reflexivity. }
    destruct kept as [|first others]; [reflexivity|].
    cbn [map] in *. rewrite K, R. reflexivity.
Qed.

(** * The further properties at sample inputs *)

(** Two spellings of one label. *)
Lemma education_similarity_symmetric_witness :
  " BSc Computer Science" <> "" /\ "bsc computer science " <> ""
  /\ _education_similarity (Some " BSc Computer Science") (Some "bsc computer science ")
     = _education_similarity (Some "bsc computer science ") (Some " BSc Computer Science")
  /\ _education_similarity (Some " BSc Computer Science") (Some "bsc computer science ")
     = 1.
Proof.
  assert (G : " BSc Computer Science" <> "") by discriminate.
  assert (J : "bsc computer science " <> "") by discriminate.
  destruct (education_similarity_symmetric _ _ G J) as [S O].
  split; [exact G|]. split; [exact J|]. split; [exact S|].
  apply O. split; [reflexivity | discriminate].
Defined.

(** The same two skills, written differently and in another order. *)
Lemma skills_similarity_symmetric_witness :
  ["Python"; " sql"] <> [] /\ ["SQL"; "python"; "Sql"] <> []
  /\ _skills_similarity (Some ["Python"; " sql"]) (Some ["SQL"; "python"; "Sql"])
     = _skills_similarity (Some ["SQL"; "python"; "Sql"]) (Some ["Python"; " sql"])
  /\ ((exists x, in_skills (Some ["Python"; " sql"]) x)
      /\ forall x, in_skills (Some ["Python"; " sql"]) x
                   <-> in_skills (Some ["SQL"; "python"; "Sql"]) x).
Proof.
  assert (G : ["Python"; " sql"] <> []) by discriminate.
  assert (J : ["SQL"; "python"; "Sql"] <> []) by discriminate.
  destruct (skills_similarity_symmetric _ _ G J) as [S O].
  split; [exact G|]. split; [exact J|]. split; [exact S|].
  apply O. reflexivity.
Defined.

(** The three jobs from the empty cache: one result, the best. *)
Lemma computed_results_are_distinct_jobs_witness :
  exists results c',
    compute_matches sample_runtime default_config (clock_at 0) zero_vector three_jobs
      (Some (skilled_graduate ["python"; "sql"])) (Some best_only) []
    = (Return results, c')
    /\ map mr_id results = ["full"%string]
    /\ NoDup (map mr_id results)
    /\ forall r, In r results ->
         exists job, In job three_jobs /\ job_usable job = Some (mr_id r).
Proof.
  destruct (compute_matches sample_runtime default_config (clock_at 0) zero_vector
              three_jobs (Some (skilled_graduate ["python"; "sql"])) (Some best_only) [])
    as [[results|ex] c'] eqn:E; [|vm_compute in E; discriminate E].
  exists results, c'.
  destruct (computed_results_are_distinct_jobs sample_runtime default_config (clock_at 0)
              zero_vector three_jobs (Some (skilled_graduate ["python"; "sql"]))
              (Some best_only) [] results c' eq_refl E) as [N F].
  split; [reflexivity|].
  split; [vm_compute in E; injection E as <- _; reflexivity|].
  split; [exact N | exact F].
Defined.



(** A score of one third against a minimum of 0.33331: reported as 0.3333. *)
Lemma reported_score_near_threshold_witness :
  exists results c',
    compute_matches sample_runtime default_config (clock_at 0) zero_vector
      [skilled_job "job-1" ["python"; "sql"; "rust"]]
      (Some (skilled_graduate ["Python"]))
      (Some (skills_only (33331 # 100000))) []
    = (Return results, c')
    /\ map mr_score results = [Finite (3333 # 10000)]
    /\ forall r, In r results ->
         flt (mr_score r)
           (Finite (effective_min_score default_config
                      (Some (skills_only (33331 # 100000))) - (1 # 20000))) = false
         /\ forall x, mr_score r = Finite x ->
              effective_min_score default_config (Some (skills_only (33331 # 100000)))
              - (1 # 20000) <= x.
Proof.
  destruct (compute_matches sample_runtime default_config (clock_at 0) zero_vector
              [skilled_job "job-1" ["python"; "sql"; "rust"]]
              (Some (skilled_graduate ["Python"]))
              (Some (skills_only (33331 # 100000))) [])
    as [[results|ex] c'] eqn:E; [|vm_compute in E; discriminate E].
  exists results, c'.
  destruct (reported_score_near_threshold sample_runtime default_config (clock_at 0)
              zero_vector [skilled_job "job-1" ["python"; "sql"; "rust"]]
              (Some (skilled_graduate ["Python"]))
              (Some (skills_only (33331 # 100000))) [] results c' eq_refl E) as [_ B].
  split; [reflexivity|].
  split; [vm_compute in E; injection E as <- _; reflexivity | exact B].
Defined.

(** A write under a third key into a full cache of two. *)
Lemma write_keeps_the_most_recent_witness :
  (0 <= MATCH_CACHE_MAX_ENTRIES tiny_config)%Z
  /\ _set_cache tiny_config "k3" [] 7 [("k1", fresh_entry); ("k2", stale_entry)]
     = (Return tt, [("k3", {| value := []; expires_at := 7 + inject_Z 300 |})]).
Proof.
  assert (H : (0 <= MATCH_CACHE_MAX_ENTRIES tiny_config)%Z) by (vm_compute; discriminate).
  split; [exact H|].
  exact (write_keeps_the_most_recent tiny_config "k3" [] 7
           [("k1", fresh_entry); ("k2", stale_entry)] H).
Defined.

(** A read 300 seconds after the write, and one later than that. *)
Lemma write_then_read_witness :
  (1 <= MATCH_CACHE_MAX_ENTRIES default_config)%Z
  /\ fst (_get_from_cache "k" 307
            (snd (_set_cache default_config "k" [] 7 [("j", fresh_entry)])))
     = Some []
  /\ fst (_get_from_cache "k" (3071 # 10)
            (snd (_set_cache default_config "k" [] 7 [("j", fresh_entry)])))
     = None.
Proof.
  assert (H : (1 <= MATCH_CACHE_MAX_ENTRIES default_config)%Z) by (vm_compute; discriminate).
  destruct (write_then_read default_config "k" [] 7 307 [("j", fresh_entry)] H) as [A _].
  destruct (write_then_read default_config "k" [] 7 (3071 # 10) [("j", fresh_entry)] H)
    as [_ B].
  split; [exact H|]. split; [apply A | apply B]; vm_compute; congruence.
Defined.

(** A hit on the older of two entries. *)
Lemma hit_only_reorders_witness :
  fst (_get_from_cache "j" 10 [("j", fresh_entry); ("k", fresh_entry)]) = Some []
  /\ snd (_get_from_cache "j" 10 [("j", fresh_entry); ("k", fresh_entry)])
     = [("k", fresh_entry); ("j", fresh_entry)]
  /\ forall k, cache_get k (snd (_get_from_cache "j" 10
                                   [("j", fresh_entry); ("k", fresh_entry)]))
               = cache_get k [("j", fresh_entry); ("k", fresh_entry)].
Proof.
  assert (H : fst (_get_from_cache "j" 10 [("j", fresh_entry); ("k", fresh_entry)])
              = Some []) by reflexivity.
  destruct (hit_only_reorders "j" 10 [("j", fresh_entry); ("k", fresh_entry)] [] H)
    as [L _].
  split; [exact H|]. split; [reflexivity | exact L].
Defined.

(** A cache of two, full: the older entry is read, then a third key written. *)
Lemma entry_read_survives_next_write_witness :
  let two := {| MATCH_MIN_SCORE := 0; MATCH_MAX_RESULTS := 50;
                MATCH_CACHE_TTL_SECONDS := 300; MATCH_CACHE_MAX_ENTRIES := 2;
                MATCH_WEIGHT_EMBEDDING := 1; MATCH_WEIGHT_SKILLS := 0;
                MATCH_WEIGHT_EDUCATION := 0; MATCH_WEIGHT_EXPERIENCE := 0;
                MATCH_WEIGHT_FRESHNESS := 0 |} in
  (2 <= MATCH_CACHE_MAX_ENTRIES two)%Z
  /\ fst (_get_from_cache "j" 10 [("j", fresh_entry); ("k", fresh_entry)]) = Some []
  /\ "new" <> "j"
  /\ cache_get "j"
       (snd (_set_cache two "new" [] 11
               (snd (_get_from_cache "j" 10 [("j", fresh_entry); ("k", fresh_entry)]))))
     = Some fresh_entry
  /\ cache_get "k"
       (snd (_set_cache two "new" [] 11
               (snd (_get_from_cache "j" 10 [("j", fresh_entry); ("k", fresh_entry)]))))
     = None.
Proof.
  intro two.
  assert (H : (2 <= MATCH_CACHE_MAX_ENTRIES two)%Z) by (vm_compute; discriminate).
  assert (G : fst (_get_from_cache "j" 10 [("j", fresh_entry); ("k", fresh_entry)])
              = Some []) by reflexivity.
  assert (N : "new" <> "j") by discriminate.
  split; [exact H|]. split; [exact G|]. split; [exact N|].
  split; [|reflexivity].
  exact (entry_read_survives_next_write two "j" "new" [] [] 10 11
           [("j", fresh_entry); ("k", fresh_entry)] H G N).
Defined.

(** A job with an empty embedding, against a cache that holds an expired
    entry under another key. *)
Lemma failed_call_adds_nothing_witness :
  exists e c',
    compute_matches sample_runtime default_config (clock_at 10) zero_vector
      (pair_jobs [] zero_vector) None None [("k", stale_entry)]
    = (Raise e, c')
    /\ forall kv, In kv c' -> In kv [("k", stale_entry)].
Proof.
  destruct (compute_matches sample_runtime default_config (clock_at 10) zero_vector
              (pair_jobs [] zero_vector) None None [("k", stale_entry)])
    as [[results|e] c'] eqn:E; [vm_compute in E; discriminate E|].
  exists e, c'. split; [reflexivity|].
  exact (failed_call_adds_nothing sample_runtime default_config (clock_at 10) zero_vector
           (pair_jobs [] zero_vector) None None [("k", stale_entry)] e c' E).
Defined.

(** The first graduate's answer is computed and cached, the second graduate's
    call raises: status 500, and the cache keeps the first graduate's entry. *)
Lemma batch_is_all_or_nothing_witness :
  exists e c2,
    match_candidates_batch sample_runtime default_config (fun _ => clock_at 0)
      two_graduates []
    = (HTTPException 500 (Error_computing_batch_matches e), c2)
    /\ List.length c2 = 1%nat.
Proof.
  destruct (match_graduates sample_runtime default_config (fun _ => clock_at 0) 0
              (map dump_job (bq_job_embeddings two_graduates))
              (option_map dump_options (bq_options two_graduates))
              [{| gp_id := Some "g1"%string; gp_embedding := zero_vector;
                  gp_metadata := None |}] [])
    as [[items|e0] c1] eqn:M; [|vm_compute in M; discriminate M].
  assert (B : List.length [1] <> EMBEDDING_DIMENSION) by (vm_compute; discriminate).
  assert (E := compute_matches_bad_graduate sample_runtime default_config (clock_at 0)
                 [1] (map dump_job (bq_job_embeddings two_graduates)) None
                 (option_map dump_options (bq_options two_graduates)) c1 B).
  destruct (batch_is_all_or_nothing sample_runtime default_config (fun _ => clock_at 0)
              two_graduates []) as [_ F].
  assert (J : bq_job_embeddings two_graduates <> []) by discriminate.
  eexists. exists c1. split.
  - exact (F [{| gp_id := Some "g1"%string; gp_embedding := zero_vector;
                 gp_metadata := None |}]
             {| gp_id := Some "g2"%string; gp_embedding := [1]; gp_metadata := None |}
             [] items c1 _ c1 eq_refl J M E).
  - vm_compute in M. injection M as _ <-. reflexivity.
Defined.
